(** * btils: worker pool, UID and JSON helpers

    A shallow embedding of the Go package [btils] (threader.go, the UID
    file, json.go) and the properties of its specification.

    - [GoRt]     the pieces of the Go runtime the package relies on:
                 panics, int64 arithmetic, buffered channels.
    - [Threader] the worker pool of threader.go as an interleaving
                 transition system over goroutine states.
    - [Uid]      the 16-byte identifier over a byte-addressed memory.
    - [Json]     the two deserialization wrappers over a heap of values. *)

From stdpp Require Import base option list gmap strings.
From Stdlib Require Import ZArith Lia Ascii.

(* ===================================================================== *)
(** * Go runtime primitives                                               *)
(* ===================================================================== *)

Module GoRt.

(** A Go call either returns or panics with a runtime message. *)
Inductive outcome (A : Type) : Type :=
| Ok (a : A)
| Panic (msg : string).
Arguments Ok {A} a.
Arguments Panic {A} msg.

Definition is_ok {A} (r : outcome A) : bool :=
  match r with Ok _ => true | Panic _ => false end.

Definition obind {A B} (r : outcome A) (k : A → outcome B) : outcome B :=
  match r with Ok a => k a | Panic m => Panic m end.

(** ** int64 with wrap-around (sync/atomic: AddInt64 wraps silently) *)

Definition wrap64 (z : Z) : Z := ((z + 2 ^ 63) `mod` 2 ^ 64 - 2 ^ 63)%Z.

Definition add_int64 (a b : Z) : Z := wrap64 (a + b).

Definition in_int64 (z : Z) : Prop := (- 2 ^ 63 ≤ z < 2 ^ 63)%Z.

(** ** uint32 with wrap-around *)

Definition wrap32 (z : Z) : Z := (z `mod` 2 ^ 32)%Z.

(** ** Channels

    A channel is a first-in-first-out buffer with a capacity fixed by
    [make] and a closed flag.  An unbuffered channel is the capacity-0
    case: a send on it completes only by meeting a receiver, which the
    model renders as "never has room". *)

Record chan (T : Type) : Type := Chan {
  buf : list T;
  cap : Z;
  closed : bool;
}.
Arguments Chan {T} buf cap closed.
Arguments buf {T} c.
Arguments cap {T} c.
Arguments closed {T} c.

(** [make(chan T, size)]: a negative size is a run-time panic. *)
Definition make_chan {T} (size : Z) : outcome (chan T) :=
  if (size <? 0)%Z then Panic "makechan: size out of range"
  else Ok (Chan [] size false).

(** [c <- x].  [None]: the sender blocks.  A send on a closed channel
    panics whether or not the buffer has room. *)
Definition chan_send {T} (c : chan T) (x : T) : option (outcome (chan T)) :=
  if closed c then Some (Panic "send on closed channel")
  else if (Z.of_nat (length (buf c)) <? cap c)%Z
       then Some (Ok (Chan (buf c ++ [x]) (cap c) false))
       else None.

(** One receive of [for x := range c].  [None]: the receiver blocks.
    [Some (None, c)]: closed and drained, the range loop ends.
    Buffered items are still delivered after [close]. *)
Definition chan_recv {T} (c : chan T) : option (option T * chan T) :=
  match buf c with
  | x :: rest => Some (Some x, Chan rest (cap c) (closed c))
  | [] => if closed c then Some (None, c) else None
  end.

(** [close(c)]: closing a closed channel panics. *)
Definition chan_close {T} (c : chan T) : outcome (chan T) :=
  if closed c then Panic "close of closed channel"
  else Ok (Chan (buf c) (cap c) true).

End GoRt.

(* ===================================================================== *)
(** * threader.go                                                         *)
(* ===================================================================== *)

Module Threader.
Import GoRt.

Section Pool.

(** [T] is the item type; [S] is whatever state the callback acts on. *)
Context {T S : Type}.

Record ThreaderManager : Type := MkTM {
  channel : chan T;
  workers : Z;
  callback : T → S → S;
  counter : Z;
}.

Definition NewThreadManager (workers : Z) (callback : T → S → S)
  : outcome ThreaderManager :=
  obind (make_chan workers) (λ ch,
    Ok {| channel := ch; workers := workers; callback := callback;
          counter := 0 |}).

(** [atomic.LoadInt64(&tm.counter) == 0] *)
Definition IsDone (tm : ThreaderManager) : bool := (counter tm =? 0)%Z.

(** [close(tm.channel)] *)
Definition Stop (tm : ThreaderManager) : outcome ThreaderManager :=
  obind (chan_close (channel tm)) (λ ch,
    Ok {| channel := ch; workers := workers tm; callback := callback tm;
          counter := counter tm |}).

Definition add_counter (d : Z) (tm : ThreaderManager) : ThreaderManager :=
  {| channel := channel tm; workers := workers tm; callback := callback tm;
     counter := add_int64 (counter tm) d |}.

Definition set_channel (ch : chan T) (tm : ThreaderManager) : ThreaderManager :=
  {| channel := ch; workers := workers tm; callback := callback tm;
     counter := counter tm |}.

(** [Feed], first statement: [atomic.AddInt64(&tm.counter, 1)]. *)
Definition Feed_add (tm : ThreaderManager) : ThreaderManager := add_counter 1 tm.

(** [Feed], second statement: [tm.channel <- in]. *)
Definition Feed_send (tm : ThreaderManager) (x : T)
  : option (outcome ThreaderManager) :=
  match chan_send (channel tm) x with
  | None => None
  | Some (Panic m) => Some (Panic m)
  | Some (Ok ch) => Some (Ok (set_channel ch tm))
  end.

(** Worker body, [for in := range tm.channel]. *)
Definition worker_recv (tm : ThreaderManager) : option (option T * ThreaderManager) :=
  match chan_recv (channel tm) with
  | None => None
  | Some (ox, ch) => Some (ox, set_channel ch tm)
  end.

(** Worker body, [atomic.AddInt64(&tm.counter, -1)]. *)
Definition worker_add (tm : ThreaderManager) : ThreaderManager := add_counter (-1) tm.

(** ** Goroutines

    A caller goroutine is outside the pool's methods, inside the loop of
    [Start], or inside [Feed] between the increment and the send. *)
Inductive caller : Type :=
| CIdle
| CStart (i : Z)
| CFeed (x : T).

(** A worker goroutine is at the receive, holds a received item, is
    inside the callback, has returned from it and not yet decremented,
    or has left the range loop. *)
Inductive worker : Type :=
| WRecv
| WGot (x : T)
| WCall (x : T)
| WDecr (x : T)
| WExit.

(** The history of the run, oldest event first. *)
Inductive event : Type :=
| EvFeed (x : T)      (* Feed incremented the counter for x *)
| EvEnq (x : T)       (* x entered the channel *)
| EvDeq (x : T)       (* a worker received x *)
| EvCall (x : T)      (* a worker invoked the callback on x *)
| EvRet (x : T)       (* the callback returned for x *)
| EvDecr (x : T)      (* the worker decremented the counter for x *)
| EvIsDone (b : bool) (* IsDone was read and returned b *)
| EvStop.             (* Stop closed the channel *)

Record state : Type := MkState {
  tm : ThreaderManager;
  callers : list caller;
  pool : list worker;
  world : S;
  crashed : option string;
  trace : list event;
}.

Definition set_tm (f : ThreaderManager → ThreaderManager) (st : state) : state :=
  {| tm := f (tm st); callers := callers st; pool := pool st;
     world := world st; crashed := crashed st; trace := trace st |}.

Definition set_caller (c : nat) (s : caller) (st : state) : state :=
  {| tm := tm st; callers := <[c := s]> (callers st); pool := pool st;
     world := world st; crashed := crashed st; trace := trace st |}.

Definition set_worker (w : nat) (s : worker) (st : state) : state :=
  {| tm := tm st; callers := callers st; pool := <[w := s]> (pool st);
     world := world st; crashed := crashed st; trace := trace st |}.

Definition spawn (st : state) : state :=
  {| tm := tm st; callers := callers st; pool := pool st ++ [WRecv];
     world := world st; crashed := crashed st; trace := trace st |}.

Definition set_world (f : S → S) (st : state) : state :=
  {| tm := tm st; callers := callers st; pool := pool st;
     world := f (world st); crashed := crashed st; trace := trace st |}.

Definition crash (m : string) (st : state) : state :=
  {| tm := tm st; callers := callers st; pool := pool st;
     world := world st; crashed := Some m; trace := trace st |}.

Definition log (e : event) (st : state) : state :=
  {| tm := tm st; callers := callers st; pool := pool st;
     world := world st; crashed := crashed st; trace := trace st ++ [e] |}.

(** What the scheduler may pick next. *)
Inductive action : Type :=
| ActStart (c : nat)          (* caller c enters Start *)
| ActLoop (c : nat)           (* one test of the Start loop: spawn or leave *)
| ActFeed (c : nat) (x : T)   (* caller c enters Feed(x): the increment *)
| ActSend (c : nat)           (* caller c's send goes through, or panics *)
| ActIsDone (c : nat)         (* caller c reads IsDone *)
| ActStop (c : nat)           (* caller c calls Stop *)
| ActWork (w : nat).          (* worker w takes its next step *)

Definition when_idle (c : nat) (st : state) (k : option state) : option state :=
  match callers st !! c with
  | Some CIdle => k
  | _ => None
  end.

(** One atomic step.  [None]: the action is not enabled (the goroutine
    is blocked, is elsewhere in its code, or the process has died). *)
Definition step (a : action) (st : state) : option state :=
  match crashed st with
  | Some _ => None
  | None =>
    match a with
    | ActStart c => when_idle c st (Some (set_caller c (CStart 0) st))
    | ActLoop c =>
        match callers st !! c with
        | Some (CStart i) =>
            if (i <? workers (tm st))%Z
            then Some (set_caller c (CStart (i + 1)) (spawn st))
            else Some (set_caller c CIdle st)
        | _ => None
        end
    | ActFeed c x =>
        when_idle c st
          (Some (log (EvFeed x) (set_caller c (CFeed x) (set_tm Feed_add st))))
    | ActSend c =>
        match callers st !! c with
        | Some (CFeed x) =>
            match Feed_send (tm st) x with
            | None => None
            | Some (Panic m) => Some (crash m st)
            | Some (Ok tm') =>
                Some (log (EvEnq x) (set_caller c CIdle (set_tm (λ _, tm') st)))
            end
        | _ => None
        end
    | ActIsDone c =>
        when_idle c st (Some (log (EvIsDone (IsDone (tm st))) st))
    | ActStop c =>
        when_idle c st
          (match Stop (tm st) with
           | Panic m => Some (crash m st)
           | Ok tm' => Some (log EvStop (set_tm (λ _, tm') st))
           end)
    | ActWork w =>
        match pool st !! w with
        | Some WRecv =>
            match worker_recv (tm st) with
            | None => None
            | Some (None, tm') => Some (set_worker w WExit (set_tm (λ _, tm') st))
            | Some (Some x, tm') =>
                Some (log (EvDeq x) (set_worker w (WGot x) (set_tm (λ _, tm') st)))
            end
        | Some (WGot x) => Some (log (EvCall x) (set_worker w (WCall x) st))
        | Some (WCall x) =>
            Some (log (EvRet x)
                    (set_worker w (WDecr x) (set_world (callback (tm st) x) st)))
        | Some (WDecr x) =>
            Some (log (EvDecr x) (set_worker w WRecv (set_tm worker_add st)))
        | Some WExit | None => None
        end
    end
  end.

(** A schedule is a list of actions; a run applies them in order. *)
Fixpoint run (sched : list action) (st : state) : option state :=
  match sched with
  | [] => Some st
  | a :: rest =>
      match step a st with
      | Some st' => run rest st'
      | None => None
      end
  end.

(** [Start] as caller [c] executes it when nothing else is scheduled in
    between: enter, then one loop test per worker and the last, failing
    one. *)
Definition Start (c : nat) (tm0 : ThreaderManager) : list action :=
  ActStart c :: replicate (Z.to_nat (workers tm0) + 1) (ActLoop c).

(** [Feed(x)] as caller [c] executes it: the increment, then the send. *)
Definition Feed (c : nat) (x : T) : list action := [ActFeed c x; ActSend c].

(** A pool fresh from [NewThreadManager], with [n] caller goroutines and
    no worker yet. *)
Definition init (tm0 : ThreaderManager) (n : nat) (w0 : S) : state :=
  {| tm := tm0; callers := replicate n CIdle; pool := []; world := w0;
     crashed := None; trace := [] |}.

Definition reachable_from (st0 st : state) : Prop :=
  ∃ sched, run sched st0 = Some st.

(** ** Views of the history and of the goroutines *)

Definition fed (tr : list event) : list T :=
  omap (λ e, match e with EvFeed x => Some x | _ => None end) tr.
Definition enqueued (tr : list event) : list T :=
  omap (λ e, match e with EvEnq x => Some x | _ => None end) tr.
Definition dequeued (tr : list event) : list T :=
  omap (λ e, match e with EvDeq x => Some x | _ => None end) tr.
Definition invoked (tr : list event) : list T :=
  omap (λ e, match e with EvCall x => Some x | _ => None end) tr.
Definition returned (tr : list event) : list T :=
  omap (λ e, match e with EvRet x => Some x | _ => None end) tr.
Definition acked (tr : list event) : list T :=
  omap (λ e, match e with EvDecr x => Some x | _ => None end) tr.

Definition feeding (c : caller) : option T :=
  match c with CFeed x => Some x | _ => None end.
Definition has_got (w : worker) : option T :=
  match w with WGot x => Some x | _ => None end.
Definition in_call (w : worker) : option T :=
  match w with WCall x => Some x | _ => None end.
Definition to_decr (w : worker) : option T :=
  match w with WDecr x => Some x | _ => None end.

(** Items of Feed calls that have incremented and not yet sent. *)
Definition sending (cs : list caller) : list T := omap feeding cs.
(** Items received by a worker that has not yet invoked the callback. *)
Definition got (ws : list worker) : list T := omap has_got ws.
(** Items whose callback is running. *)
Definition calling (ws : list worker) : list T := omap in_call ws.
(** Items whose callback has returned, decrement still to come. *)
Definition finishing (ws : list worker) : list T := omap to_decr ws.

(** Nothing is in flight: no Feed is half way, the queue is empty and no
    worker holds an item. *)
Definition quiescent (st : state) : Prop :=
  sending (callers st) = [] ∧ buf (channel (tm st)) = [] ∧
  got (pool st) = [] ∧ calling (pool st) = [] ∧ finishing (pool st) = [].

(** Items counted by the counter: fed and not yet decremented for. *)
Definition in_flight (st : state) : Z :=
  (Z.of_nat (length (fed (trace st))) - Z.of_nat (length (acked (trace st))))%Z.

(** The accounting that every run maintains. *)
Record consistent (st : state) : Prop := {
  c_fed : fed (trace st) ≡ₚ enqueued (trace st) ++ sending (callers st);
  c_fifo : enqueued (trace st) = dequeued (trace st) ++ buf (channel (tm st));
  c_deq : dequeued (trace st) ≡ₚ invoked (trace st) ++ got (pool st);
  c_call : invoked (trace st) ≡ₚ returned (trace st) ++ calling (pool st);
  c_ret : returned (trace st) ≡ₚ acked (trace st) ++ finishing (pool st);
  c_counter : counter (tm st) = wrap64 (in_flight st);
  c_room : (Z.of_nat (length (buf (channel (tm st))))
            ≤ Z.max 0 (cap (channel (tm st))))%Z;
}.

(** In a history: every enqueue has its increment behind it, and every
    decrement has its callback's return behind it. *)
Definition ordered (tr : list event) : Prop :=
  enqueued tr ⊆+ fed tr ∧ acked tr ⊆+ returned tr.

(** The goroutines and the buffer together stay below the 2^64 distinct
    values of the counter. *)
Definition bounded (st : state) : Prop :=
  (Z.of_nat (length (callers st)) + Z.of_nat (length (pool st))
   + Z.max 0 (cap (channel (tm st))) < 2 ^ 64)%Z.

(** The loop variable of [Start] counts up from 0. *)
Definition loop_started (c : caller) : Prop :=
  match c with CStart i => (0 ≤ i)%Z | _ => True end.

(** How far the items in flight are from done: an item waiting to be
    sent has five steps to go, a buffered one four, and so on. *)
Definition work_left (st : state) : nat :=
  5 * length (sending (callers st)) + 4 * length (buf (channel (tm st))) +
  3 * length (got (pool st)) + 2 * length (calling (pool st)) +
  length (finishing (pool st)).

Definition running (w : worker) : Prop := w ≠ WExit.

(** A live pool with the channel open and at least one worker, none of
    which has left. *)
Definition drainable (st : state) : Prop :=
  crashed st = None ∧ closed (channel (tm st)) = false ∧
  (0 < cap (channel (tm st)))%Z ∧ pool st ≠ [] ∧ Forall running (pool st).

(** What [NewThreadManager] and [Start] establish about the shape of a
    pool. *)
Definition shaped (st : state) : Prop :=
  cap (channel (tm st)) = workers (tm st) ∧
  Forall loop_started (callers st) ∧
  (pool st ≠ [] → (0 < workers (tm st))%Z) ∧
  (closed (channel (tm st)) = false → Forall running (pool st)).

(** A pool that can never move an item: no worker, no buffer, nothing
    ever enqueued or handed to the callback. *)
Definition starved (st : state) : Prop :=
  workers (tm st) = 0%Z ∧ cap (channel (tm st)) = 0%Z ∧
  buf (channel (tm st)) = [] ∧ pool st = [] ∧
  enqueued (trace st) = [] ∧ invoked (trace st) = [] ∧
  Forall loop_started (callers st).

(** What a constructor that validates its worker count would do with
    [w]: refuse it, or return a pool with at least one worker. *)
Definition rejects_or_clamps (r : outcome ThreaderManager) : Prop :=
  match r with
  | Panic _ => True
  | Ok tm0 => (1 ≤ workers tm0)%Z ∧ (1 ≤ cap (channel tm0))%Z
  end.

(** ** Further views, for the properties beyond the accounting *)

(** The values the reads of IsDone returned, in order. *)
Definition polls (tr : list event) : list bool :=
  omap (λ e, match e with EvIsDone b => Some b | _ => None end) tr.

(** What is fixed when the pool is built and the callers are created.
    The list of workers only grows: a worker goroutine that has returned
    keeps its place in it, as [WExit]. *)
Definition same_setup (st st' : state) : Prop :=
  workers (tm st') = workers (tm st) ∧
  callback (tm st') = callback (tm st) ∧
  cap (channel (tm st')) = cap (channel (tm st)) ∧
  length (callers st') = length (callers st) ∧
  length (pool st) ≤ length (pool st').

(** The goroutines and the buffer together are fewer than the positive
    values of an int64. *)
Definition small (st : state) : Prop :=
  (Z.of_nat (length (callers st)) + Z.of_nat (length (pool st))
   + Z.max 0 (cap (channel (tm st))) < 2 ^ 63)%Z.

(** The state the callback has produced from [w0] when applied to [xs]
    in order. *)
Definition replay (cb : T → S → S) (w0 : S) (xs : list T) : S :=
  foldl (λ w x, cb x w) w0 xs.

(** The caller's side of a schedule: what is left when the workers'
    steps are taken out. *)
Fixpoint caller_actions (sched : list action) : list action :=
  match sched with
  | [] => []
  | ActWork _ :: rest => caller_actions rest
  | a :: rest => a :: caller_actions rest
  end.

(** The items of the Feed calls of a schedule, in order. *)
Definition feeds_of (sched : list action) : list T :=
  omap (λ a, match a with ActFeed _ x => Some x | _ => None end) sched.

(** Every one of [items] has been through the callback, once: invoked
    for and returned from once each, the counter back at 0, and the
    callback's state the result of one application per item, in some
    order (an application taking effect as a whole). *)
Definition processed (cb : T → S → S) (w0 : S) (items : list T) (st : state) : Prop :=
  invoked (trace st) ≡ₚ items ∧
  returned (trace st) ≡ₚ items ∧
  counter (tm st) = 0%Z ∧ IsDone (tm st) = true ∧
  ∃ order, order ≡ₚ items ∧ world st = replay cb w0 order.

(** The way the README, the test and main use the pool: Start, Feed each
    item, call IsDone [k] times, Stop. *)
Definition feed_poll_stop (c : nat) (tm0 : ThreaderManager) (items : list T) (k : nat)
  : list action :=
  Start c tm0 ++ concat (Feed c <$> items) ++ replicate k (ActIsDone c) ++ [ActStop c].

(** Workers a caller inside the loop of Start is still to launch. *)
Definition to_spawn (W : Z) (c : caller) : Z :=
  match c with CStart i => (W - i)%Z | _ => 0%Z end.

Definition spawning (W : Z) (cs : list caller) : Z :=
  foldr (λ c acc, (to_spawn W c + acc)%Z) 0%Z cs.

Definition loop_in_range (W : Z) (c : caller) : Prop :=
  match c with CStart i => (0 ≤ i ≤ W)%Z | _ => True end.

(** The calls of Start in a schedule. *)
Definition starts_of (sched : list action) : nat :=
  length (omap (λ a, match a with ActStart c => Some c | _ => None end) sched).

(** The workers launched and those still to be launched are [W] per call
    of Start. *)
Definition budget (W : Z) (k : nat) (st : state) : Prop :=
  (Z.of_nat (length (pool st)) + spawning W (callers st) = W * Z.of_nat k)%Z ∧
  Forall (loop_in_range W) (callers st).

(** A worker that has left its loop. *)
Definition exited (w : worker) : Prop := w = WExit.

Definition active (w : worker) : option unit :=
  match w with WExit => None | _ => Some () end.

(** Steps still to be taken before the pool is at rest after Stop: those
    of the items in flight, and one per worker to leave its loop. *)
Definition steps_left (st : state) : nat :=
  work_left st + length (omap active (pool st)).

(** No worker has left its loop while items were still queued. *)
Definition no_orphans (st : state) : Prop :=
  ∀ w, pool st !! w = Some WExit → buf (channel (tm st)) = [].

(** A stopped pool with no Feed under way. *)
Definition closing (st : state) : Prop :=
  crashed st = None ∧ closed (channel (tm st)) = true ∧
  sending (callers st) = [] ∧ pool st ≠ [] ∧ no_orphans st.

(** With a single worker every stage of the pipeline keeps the order. *)
Record serial (st : state) : Prop := {
  s_deq : dequeued (trace st) = invoked (trace st) ++ got (pool st);
  s_call : invoked (trace st) = returned (trace st) ++ calling (pool st);
  s_ret : returned (trace st) = acked (trace st) ++ finishing (pool st);
}.

End Pool.

Arguments ThreaderManager : clear implicits.
Arguments state : clear implicits.
Arguments caller : clear implicits.
Arguments worker : clear implicits.
Arguments event : clear implicits.
Arguments action : clear implicits.

(** ** The scenario of btils_test.go

    Two workers, one caller goroutine, the items Foo, Baar, Baloo and
    Golang; the callback prints a line, which the model appends to the
    output. *)

Definition handled (x : string) (out : list string) : list string :=
  out ++ ["Handled " +:+ x].

Definition test_tm : ThreaderManager string (list string) :=
  MkTM (Chan [] 2 false) 2 handled 0.

Definition test_init : state string (list string) := init test_tm 1 [].

(** Start; feed two items, which two workers pick up; feed the other two
    while the callbacks run. *)
Definition test_fed : list (action string) :=
  Start 0 test_tm ++ Feed 0 "Foo" ++ Feed 0 "Baar" ++
  [ActWork 0; ActWork 1; ActWork 1; ActWork 0] ++
  Feed 0 "Baloo" ++ Feed 0 "Golang".

(** Worker 1 finishes Baar first and goes on with Baloo and Golang;
    worker 0 finishes Foo last. *)
Definition test_drain : list (action string) :=
  [ActWork 1; ActIsDone 0; ActWork 1;
   ActWork 1; ActWork 1; ActWork 1; ActWork 1;
   ActWork 1; ActWork 1; ActWork 1; ActIsDone 0; ActWork 1;
   ActWork 0; ActWork 0; ActIsDone 0].

Definition state_after (sched : list (action string)) : state string (list string) :=
  default test_init (run sched test_init).

(** A pool built with zero workers, started, and fed one item. *)
Definition zero_tm : ThreaderManager string (list string) :=
  MkTM (Chan [] 0 false) 0 handled 0.

Definition zero_fed : state string (list string) :=
  default test_init
    (run (Start 0 zero_tm ++ [ActFeed 0 "Foo"]) (init zero_tm 1 [])).

Definition test_busy : state string (list string) := state_after test_fed.
Definition test_done : state string (list string) :=
  state_after (test_fed ++ test_drain).
Definition test_stopped : state string (list string) :=
  state_after (test_fed ++ test_drain ++ [ActStop 0]).
(** After Stop both workers find the channel closed and leave. *)
Definition test_exited : state string (list string) :=
  state_after (test_fed ++ test_drain ++ [ActStop 0; ActWork 0; ActWork 1]).
Definition test_stopped_twice : state string (list string) :=
  state_after (test_fed ++ test_drain ++ [ActStop 0; ActStop 0]).

(** A fifth Feed while both workers are busy and the queue is full. *)
Definition test_blocked : state string (list string) :=
  state_after (test_fed ++ [ActFeed 0 "More"]).

(** Stop while two items are queued and two are with the workers. *)
Definition test_stopped_busy : state string (list string) :=
  state_after (test_fed ++ [ActStop 0]).

Definition test_items : list string := ["Foo"; "Baar"; "Baloo"; "Golang"].

(** The whole run of the test, and its history up to the read of IsDone
    that returned true. *)
Definition test_run : list (action string) :=
  test_fed ++ test_drain ++ [ActStop 0].
Definition test_before_poll : list (event string) := take 26 (trace test_done).

(** A pool with a single worker, fed A, B and C. *)
Definition solo_tm : ThreaderManager string (list string) :=
  MkTM (Chan [] 1 false) 1 handled 0.
Definition solo_run : list (action string) :=
  Start 0 solo_tm ++ Feed 0 "A" ++ [ActWork 0] ++ Feed 0 "B" ++
  [ActWork 0; ActWork 0; ActWork 0; ActWork 0; ActWork 0] ++ Feed 0 "C".
Definition solo_busy : state string (list string) :=
  default test_init (run solo_run (init solo_tm 1 [])).

(** What a Stop that may be repeated would guarantee. *)
Definition second_Stop_tolerated {T S : Type} (tm0 : ThreaderManager T S) : Prop :=
  ∀ tm1, Stop tm0 = Ok tm1 → is_ok (Stop tm1) = true.

End Threader.

(* ===================================================================== *)
(** * The UID file                                                        *)
(* ===================================================================== *)

Module Uid.
Import GoRt.
Local Open Scope Z_scope.

Global Instance outcome_bind : MBind outcome := λ A B k r, obind r k.

(** ** Memory

    [UIDFromString] and [ToString] reinterpret pointers, so bytes live in
    a byte-addressed memory.  A string is its header (data pointer and
    length); a [*UID] is an address, [None] for nil; a [UID] value is the
    16 bytes found there. *)

Record gostring : Type := GoString { str_data : Z; str_len : Z }.

Fixpoint load (m : gmap Z Z) (p : Z) (n : nat) : option (list Z) :=
  match n with
  | O => Some []
  | Datatypes.S k =>
      match m !! p, load m (p + 1) k with
      | Some b, Some bs => Some (b :: bs)
      | _, _ => None
      end
  end.

(** The bytes of a string. *)
Definition string_bytes (m : gmap Z Z) (s : gostring) : option (list Z) :=
  load m (str_data s) (Z.to_nat (str_len s)).

(** [*p] for [p : *UID]. *)
Definition deref (m : gmap Z Z) (p : Z) : option (list Z) := load m p 16.

(** A write through a pointer faults outside allocated memory. *)
Definition store (m : gmap Z Z) (a v : Z) : outcome (gmap Z Z) :=
  match m !! a with
  | Some _ => Ok (<[a := v]> m)
  | None => Panic "invalid memory address or nil pointer dereference"
  end.

Definition ch (a : Ascii.ascii) : Z := Z.of_N (Ascii.N_of_ascii a).

Definition bytes_of (s : string) : list Z := ch <$> String.list_ascii_of_string s.

(** [s[i]] on a string: a run-time panic outside [0, len(s)). *)
Definition index_string (s : list Z) (i : Z) : outcome Z :=
  if (i <? 0) || (Z.of_nat (length s) <=? i) then Panic "index out of range"
  else match s !! Z.to_nat i with
       | Some b => Ok b
       | None => Panic "index out of range"
       end.

(** ** The source *)

Definition randChars : list Z :=
  bytes_of "abcdefghijklmnopqrstuvwxyzABCDEFGHIJKLMNOPQRSTUVWXYZ0123456789_-".

(** [UIDFromString]: nil below 16 bytes, else the string's own data
    pointer, cast. *)
Definition UIDFromString (s : gostring) : option Z :=
  if str_len s <? 16 then None else Some (str_data s).

(** [ToString]: a string header of length 16 over the UID's own bytes.
    Slicing through a nil [*UID] panics. *)
Definition ToString (uid : option Z) : outcome gostring :=
  match uid with
  | None => Panic "invalid memory address or nil pointer dereference"
  | Some p => Ok (GoString p 16)
  end.

Definition valid_char (b : Z) : bool :=
  ((ch "a"%char <=? b) && (b <=? ch "z"%char)) ||
  ((ch "A"%char <=? b) && (b <=? ch "Z"%char)) ||
  ((ch "0"%char <=? b) && (b <=? ch "9"%char)) ||
  (b =? ch "_"%char) || (b =? ch "-"%char).

(** The loop of [IsValid] from index [i] with [todo] iterations left. *)
Fixpoint IsValid_from (uid : list Z) (i : nat) (todo : nat) : bool :=
  match todo with
  | O => true
  | Datatypes.S todo =>
      match uid !! i with
      | Some b => if valid_char b then IsValid_from uid (Datatypes.S i) todo else false
      | None => false (* no such index in a [16]byte *)
      end
  end.

Definition IsValid (uid : list Z) : bool := IsValid_from uid 0 16.

(** [b[k] = randChars[i]] *)
Definition put (b : option Z) (k : Z) (i : Z) (m : gmap Z Z) : outcome (gmap Z Z) :=
  c ← index_string randChars i;
  match b with
  | None => Panic "invalid memory address or nil pointer dereference"
  | Some p => store m (p + k) c
  end.

(** The index of the 16th character: the two bits 30 and 31 of each
    random number, side by side (uint32 arithmetic). *)
Definition last_index (rnd1 rnd2 rnd3 : Z) : Z :=
  Z.lor (Z.lor (Z.land (Z.shiftr rnd1 30) 3)
               (wrap32 (Z.shiftl (Z.land (Z.shiftr rnd2 30) 3) 2)))
        (wrap32 (Z.shiftl (Z.land (Z.shiftr rnd3 30) 3) 4)).

Section Generator.

(** [Fastrand() uint32] is linked to the runtime's cheaprand; it is taken
    as given, with the state [G] of the random source threaded through. *)
Context {G : Type} (Fastrand : G → Z * G).

Definition NewUID (b : option Z) (g : G) (m : gmap Z Z) : outcome (G * gmap Z Z) :=
  let '(rnd1, g) := Fastrand g in
  let '(rnd2, g) := Fastrand g in
  let '(rnd3, g) := Fastrand g in
  m ← put b 0 (Z.land rnd1 63) m;
  m ← put b 1 (Z.land (Z.shiftr rnd1 6) 63) m;
  m ← put b 2 (Z.land (Z.shiftr rnd1 12) 63) m;
  m ← put b 3 (Z.land (Z.shiftr rnd1 18) 63) m;
  m ← put b 4 (Z.land (Z.shiftr rnd1 24) 63) m;
  m ← put b 5 (Z.land rnd2 63) m;
  m ← put b 6 (Z.land (Z.shiftr rnd2 6) 63) m;
  m ← put b 7 (Z.land (Z.shiftr rnd2 12) 63) m;
  m ← put b 8 (Z.land (Z.shiftr rnd2 18) 63) m;
  m ← put b 9 (Z.land (Z.shiftr rnd2 24) 63) m;
  m ← put b 10 (Z.land rnd3 63) m;
  m ← put b 11 (Z.land (Z.shiftr rnd3 6) 63) m;
  m ← put b 12 (Z.land (Z.shiftr rnd3 12) 63) m;
  m ← put b 13 (Z.land (Z.shiftr rnd3 18) 63) m;
  m ← put b 14 (Z.land (Z.shiftr rnd3 24) 63) m;
  m ← put b 15 (last_index rnd1 rnd2 rnd3) m;
  Ok (g, m).

(** The sixteen indexes into [randChars], in the order written. *)
Definition indexes (rnd1 rnd2 rnd3 : Z) : list Z :=
  [Z.land rnd1 63; Z.land (Z.shiftr rnd1 6) 63; Z.land (Z.shiftr rnd1 12) 63;
   Z.land (Z.shiftr rnd1 18) 63; Z.land (Z.shiftr rnd1 24) 63;
   Z.land rnd2 63; Z.land (Z.shiftr rnd2 6) 63; Z.land (Z.shiftr rnd2 12) 63;
   Z.land (Z.shiftr rnd2 18) 63; Z.land (Z.shiftr rnd2 24) 63;
   Z.land rnd3 63; Z.land (Z.shiftr rnd3 6) 63; Z.land (Z.shiftr rnd3 12) 63;
   Z.land (Z.shiftr rnd3 18) 63; Z.land (Z.shiftr rnd3 24) 63;
   last_index rnd1 rnd2 rnd3].

(** The three numbers a call of [NewUID] draws. *)
Definition three_draws (g : G) : Z * Z * Z :=
  let r1 := Fastrand g in
  let r2 := Fastrand r1.2 in
  let r3 := Fastrand r2.2 in
  (r1.1, r2.1, r3.1).

End Generator.

(** [c] is the character of the table at index [i]. *)
Definition table_at (i c : Z) : Prop :=
  0 ≤ i < 64 ∧ randChars !! Z.to_nat i = Some c.

Definition in_uint32 (z : Z) : Prop := 0 ≤ z < 2 ^ 32.

Definition draws_in_uint32 (d : Z * Z * Z) : Prop :=
  in_uint32 d.1.1 ∧ in_uint32 d.1.2 ∧ in_uint32 d.2.

(** ** A concrete memory and random source for the examples *)

(** Memory holding [bs] from address [p] on. *)
Fixpoint place (p : Z) (bs : list Z) (m : gmap Z Z) : gmap Z Z :=
  match bs with
  | [] => m
  | b :: rest => <[p := b]> (place (p + 1) rest m)
  end.

Definition demo_text : list Z := bytes_of "0123456789abcdef-and-more".
Definition demo_mem : gmap Z Z := place 4096 demo_text ∅.
Definition demo_string : gostring := GoString 4096 25.
Definition short_string : gostring := GoString 4096 15.

(** A linear congruential generator standing in for the runtime's. *)
Definition lcg (g : Z) : Z * Z :=
  let g' := wrap32 (g * 1664525 + 1013904223) in (g', g').

End Uid.

(* ===================================================================== *)
(** * json.go                                                             *)
(* ===================================================================== *)

Module Json.

(** What a wrapper leaves behind and returns: the reader after the read,
    the heap, the pointer ([None] for nil) and the error ([None] for
    nil). *)
Record result (R E T : Type) : Type := Result {
  reader_after : R;
  heap_after : gmap positive T;
  ptr : option positive;
  err : option E;
}.
Arguments Result {R E T} _ _ _ _.
Arguments reader_after {R E T} _.
Arguments heap_after {R E T} _.
Arguments ptr {R E T} _.
Arguments err {R E T} _.

Section Wrappers.

(** [T] with its zero value (what [var res T] holds); the state [R] of an
    [io.Reader]; the error values [E]. *)
Context {T R E : Type} (zero : T).

(** The two library calls, taken as given: [io.ReadAll] advances the
    reader and yields bytes and an error; [json.Unmarshal] is handed the
    bytes and a pointer, may write the heap, and yields an error. *)
Context (io_ReadAll : R → R * list Z * option E).
Context (json_Unmarshal : list Z → option positive → gmap positive T
                          → gmap positive T * option E).

Definition Unmarshal (rc : R) (h : gmap positive T) : result R E T :=
  let '(rc, b, err) := io_ReadAll rc in
  match err with
  | Some e => Result rc h None (Some e)
  | None =>
      let res := fresh (dom h) in
      let h := <[res := zero]> h in
      let '(h, err) := json_Unmarshal b (Some res) h in
      match err with
      | Some e => Result rc h None (Some e)
      | None => Result rc h (Some res) None
      end
  end.

Definition UnmarshalPointer (in_ : option positive) (rc : R) (h : gmap positive T)
  : result R E T :=
  let '(rc, b, err) := io_ReadAll rc in
  match err with
  | Some e => Result rc h None (Some e)
  | None =>
      let '(h, err) := json_Unmarshal b in_ h in
      match err with
      | Some e => Result rc h None (Some e)
      | None => Result rc h in_ None
      end
  end.

(** A deserializer that writes nowhere but through the pointer it is
    given. *)
Definition writes_only_target : Prop :=
  ∀ b p h l, p ≠ Some l → (json_Unmarshal b p h).1 !! l = h !! l.

End Wrappers.

(** ** A toy reader and deserializer for the examples

    The reader is the list of chunks still to come and how it ends; the
    deserializer accepts one decimal digit. *)

Definition script : Type := list (list Z) * option string.

Definition read_all (rc : script) : script * list Z * option string :=
  (([], snd rc), concat (fst rc), snd rc).

Definition digit (b : list Z) (p : option positive) (h : gmap positive Z)
  : gmap positive Z * option string :=
  match p with
  | None => (h, Some "json: Unmarshal(nil)")
  | Some l =>
      match b with
      | [d] => if ((48 <=? d) && (d <=? 57))%Z then (<[l := (d - 48)%Z]> h, None)
               else (h, Some "invalid character")
      | _ => (h, Some "unexpected end of JSON input")
      end
  end.

End Json.

(* ===================================================================== *)
(** * Properties of the worker pool                                       *)
(* ===================================================================== *)

Module ThreaderFacts.
Import GoRt Threader.

Section Arith.

Lemma wrap64_range z : in_int64 (wrap64 z).
Proof.
  unfold in_int64, wrap64.
  pose proof (Z.mod_pos_bound (z + 2 ^ 63) (2 ^ 64)). lia.
Qed.

Lemma wrap64_id z : in_int64 z → wrap64 z = z.
Proof.
  unfold in_int64, wrap64. intros Hz.
  rewrite Z.mod_small; lia.
Qed.

Lemma wrap64_add z d : add_int64 (wrap64 z) d = wrap64 (z + d).
Proof.
  unfold add_int64, wrap64.
  replace ((z + 2 ^ 63) `mod` 2 ^ 64 - 2 ^ 63 + d + 2 ^ 63)%Z
    with ((z + 2 ^ 63) `mod` 2 ^ 64 + d)%Z by lia.
  replace (z + d + 2 ^ 63)%Z with ((z + 2 ^ 63) + d)%Z by lia.
  by rewrite Zplus_mod_idemp_l.
Qed.

Lemma wrap64_zero z : (0 < z < 2 ^ 64)%Z → wrap64 z ≠ 0%Z.
Proof.
  unfold wrap64. intros Hz E.
  destruct (Z_lt_ge_dec z (2 ^ 63)).
  - rewrite Z.mod_small in E; lia.
  - replace (z + 2 ^ 63)%Z with ((z - 2 ^ 63) + 1 * 2 ^ 64)%Z in E by lia.
    rewrite Z_mod_plus_full, Z.mod_small in E; lia.
Qed.

End Arith.

Section Views.
Context {A B : Type} (f : A → option B).

(** Replacing one element of a list changes a filtered view by exactly
    that element's contribution. *)
Lemma omap_insert_perm (l : list A) (i : nat) (a b : A) :
  l !! i = Some a →
  ∃ rest, omap f l ≡ₚ option_list (f a) ++ rest ∧
          omap f (<[i := b]> l) ≡ₚ option_list (f b) ++ rest.
Proof.
  intros Hi. exists (omap f (take i l) ++ omap f (drop (Datatypes.S i) l)).
  assert (Hlen : i < length l) by (eapply lookup_lt_Some; eauto).
  split.
  - rewrite <- (take_drop_middle l i a Hi) at 1.
    rewrite omap_app. csimpl. destruct (f a); csimpl; solve_Permutation.
  - rewrite insert_take_drop by done.
    rewrite omap_app. csimpl. destruct (f b); csimpl; solve_Permutation.
Qed.

Lemma omap_length_le (l : list A) : length (omap f l) ≤ length l.
Proof. induction l as [|a l IH]; csimpl; [lia|]. destruct (f a); simpl; lia. Qed.

Lemma omap_insert_length (l : list A) (i : nat) (a b : A) :
  l !! i = Some a →
  length (omap f (<[i := b]> l)) + length (option_list (f a))
  = length (omap f l) + length (option_list (f b)).
Proof.
  intros Hi. destruct (omap_insert_perm l i a b Hi) as (rest & E1 & E2).
  rewrite E1, E2, !length_app. lia.
Qed.

Lemma omap_nonempty (l : list A) :
  omap f l ≠ [] → ∃ i a b, l !! i = Some a ∧ f a = Some b.
Proof.
  induction l as [|a l IH]; csimpl; [done|].
  destruct (f a) as [b|] eqn:E.
  - intros _. by exists 0, a, b.
  - intros (i & a' & b' & Hi & Hf)%IH. by exists (Datatypes.S i), a', b'.
Qed.

Lemma omap_lookup_nonempty (l : list A) (i : nat) (a : A) (b : B) :
  l !! i = Some a → f a = Some b → omap f l ≠ [].
Proof.
  intros Hi Hf E. destruct (omap_insert_perm l i a a Hi) as (rest & E1 & _).
  rewrite E, Hf in E1. simpl in E1. by apply Permutation_nil_cons in E1.
Qed.

Lemma omap_snoc (l : list A) (a : A) :
  omap f (l ++ [a]) = omap f l ++ option_list (f a).
Proof. rewrite omap_app. csimpl. by destruct (f a). Qed.

End Views.

Section Invariant.
Context {T S : Type}.
Implicit Types (st : state T S) (a : action T).

Ltac views :=
  unfold in_flight, fed, enqueued, dequeued, invoked, returned, acked,
    sending, got, calling, finishing in *;
  cbn [trace log set_caller set_worker set_tm set_world spawn crash
       tm callers pool world crashed channel counter workers callback
       Feed_add worker_add add_counter set_channel buf cap closed] in *;
  rewrite ?omap_snoc; cbn [option_list]; rewrite ?app_nil_r.

Ltac swap_one :=
  match goal with
  | H : ?l !! ?c = Some _ |- context [omap ?f (<[?c := ?s]> ?l)] =>
      let rest := fresh "rest" in
      let E1 := fresh "E" in
      let E2 := fresh "E" in
      destruct (omap_insert_perm f l c _ s H) as (rest & E1 & E2);
      cbn [option_list feeding has_got in_call to_decr] in E1, E2;
      rewrite E2; rewrite ?E1 in *; clear E1 E2
  end.

Ltac close_view :=
  match goal with
  | |- _ ≡ₚ _ =>
      repeat swap_one;
      first [ done
            | match goal with
              | H : ?l ≡ₚ _ |- context [?l] => rewrite H; solve_Permutation
              end ]
  | |- @eq (list _) _ _ =>
      first [ done
            | match goal with
              | H : ?l = _ |- ?l ++ _ = _ => rewrite H, <- ?app_assoc; done
              | H : ?l = _ |- ?l = _ => rewrite H, <- ?app_assoc; done
              end ]
  | |- @eq Z _ _ =>
      first [ done
            | match goal with
              | H : counter _ = _ |- _ =>
                  rewrite H, wrap64_add, ?length_app; f_equal; simpl; lia
              end ]
  | |- (_ ≤ _)%Z => rewrite ?length_app; simpl in *; lia
  end.

Lemma step_consistent a st st' :
  consistent st → step a st = Some st' → consistent st'.
Proof.
  intros [Hfed Hfifo Hdeq Hcall Hret Hcnt Hroom] Hstep.
  unfold step, when_idle in Hstep. destruct (crashed st); [done|].
  destruct a as [c|c|c x|c|c|c|w].
  - destruct (callers st !! c) as [[| |]|] eqn:Hc; simplify_eq.
    split; views; close_view.
  - destruct (callers st !! c) as [[|i|]|] eqn:Hc; simplify_eq.
    destruct (i <? workers (tm st))%Z; simplify_eq;
      split; views; close_view.
  - destruct (callers st !! c) as [[| |]|] eqn:Hc; simplify_eq.
    split; views; close_view.
  - destruct (callers st !! c) as [[| |x]|] eqn:Hc; simplify_eq.
    unfold Feed_send, chan_send in Hstep.
    destruct (closed (channel (tm st))); simplify_eq.
    { split; views; close_view. }
    destruct (Z.of_nat (length (buf (channel (tm st)))) <? cap (channel (tm st)))%Z
      eqn:Hlt; simplify_eq.
    apply Z.ltb_lt in Hlt.
    split; views; close_view.
  - destruct (callers st !! c) as [[| |]|] eqn:Hc; simplify_eq.
    split; views; close_view.
  - destruct (callers st !! c) as [[| |]|] eqn:Hc; simplify_eq.
    unfold Stop, chan_close in Hstep.
    destruct (closed (channel (tm st))); cbn [obind] in Hstep; simplify_eq;
      split; views; close_view.
  - destruct (pool st !! w) as [[|x|x|x|]|] eqn:Hw; simplify_eq.
    + unfold worker_recv, chan_recv in Hstep.
      destruct (buf (channel (tm st))) as [|x rest] eqn:Hbuf.
      * destruct (closed (channel (tm st))); simplify_eq.
        split; views; rewrite ?Hbuf; close_view.
      * simplify_eq. split; views; close_view.
    + split; views; close_view.
    + split; views; close_view.
    + split; views; close_view.
Qed.

Lemma run_consistent sched st st' :
  consistent st → run sched st = Some st' → consistent st'.
Proof.
  revert st. induction sched as [|a sched IH]; intros st Hc Hr; simpl in Hr.
  - by simplify_eq.
  - destruct (step a st) as [st1|] eqn:Hs; [|done].
    eauto using step_consistent.
Qed.

Lemma fresh_pool (w : Z) (cb : T → S → S) tm0 :
  NewThreadManager w cb = Ok tm0 →
  (0 ≤ w)%Z ∧ tm0 = MkTM (Chan [] w false) w cb 0.
Proof.
  unfold NewThreadManager, make_chan.
  destruct (w <? 0)%Z eqn:Hw; cbn [obind]; intros; simplify_eq.
  apply Z.ltb_ge in Hw. done.
Qed.

Lemma init_consistent (w : Z) (cb : T → S → S) tm0 n (w0 : S) :
  NewThreadManager w cb = Ok tm0 → consistent (init tm0 n w0).
Proof.
  intros [Hw ->]%fresh_pool. split; try done.
  - unfold init, sending; cbn [callers trace].
    induction n as [|n IH]; [done|]. by csimpl.
  - simpl. lia.
Qed.

Lemma reachable_consistent (w : Z) (cb : T → S → S) (tm0 : ThreaderManager T S) n (w0 : S) st :
  NewThreadManager w cb = Ok tm0 →
  reachable_from (init tm0 n w0) st → consistent st.
Proof.
  intros Hnew [sched Hrun].
  eapply run_consistent; [|done]. by eapply init_consistent.
Qed.

Lemma consistent_ordered st : consistent st → ordered (trace st).
Proof.
  intros [Hfed _ _ _ Hret _ _]. split.
  - rewrite Hfed. by apply submseteq_inserts_r.
  - rewrite Hret. by apply submseteq_inserts_r.
Qed.

(** A step adds at most one event, at the end. *)
Lemma step_trace a st st' :
  step a st = Some st' →
  trace st' = trace st ∨ ∃ e, trace st' = trace st ++ [e].
Proof.
  intros Hstep. unfold step, when_idle in Hstep.
  destruct (crashed st); [done|].
  destruct a as [c|c|c x|c|c|c|w].
  - destruct (callers st !! c) as [[| |]|]; simplify_eq. by left.
  - destruct (callers st !! c) as [[|i|]|]; simplify_eq.
    destruct (i <? workers (tm st))%Z; simplify_eq; by left.
  - destruct (callers st !! c) as [[| |]|]; simplify_eq. right. by eexists.
  - destruct (callers st !! c) as [[| |x]|]; simplify_eq.
    destruct (Feed_send (tm st) x) as [[tm'|m]|]; simplify_eq.
    + right. by eexists.
    + by left.
  - destruct (callers st !! c) as [[| |]|]; simplify_eq. right. by eexists.
  - destruct (callers st !! c) as [[| |]|]; simplify_eq.
    destruct (Stop (tm st)); simplify_eq.
    + right. by eexists.
    + by left.
  - destruct (pool st !! w) as [[|x|x|x|]|]; simplify_eq;
      try (right; by eexists).
    destruct (worker_recv (tm st)) as [[[x|] tm']|]; simplify_eq.
    + right. by eexists.
    + by left.
Qed.

Lemma prefix_snoc_cases {A} (k l : list A) (e : A) :
  k `prefix_of` l ++ [e] → k `prefix_of` l ∨ k = l ++ [e].
Proof.
  intros [r Hr]. destruct r as [|x r _] using rev_ind.
  - right. by rewrite app_nil_r in Hr.
  - left. rewrite app_assoc in Hr. apply app_inj_tail in Hr as [-> _].
    by apply prefix_app_r.
Qed.

(** Every earlier moment of a run was itself consistent, so the order
    holds along the whole history. *)
Lemma run_history sched st st' :
  consistent st →
  (∀ tr, tr `prefix_of` trace st → ordered tr) →
  run sched st = Some st' →
  ∀ tr, tr `prefix_of` trace st' → ordered tr.
Proof.
  revert st. induction sched as [|a sched IH]; intros st Hc Hh Hr; simpl in Hr.
  - by simplify_eq.
  - destruct (step a st) as [st1|] eqn:Hs; [|done].
    pose proof (step_consistent _ _ _ Hc Hs) as Hc1.
    apply (IH st1); [done| |done].
    intros tr Htr.
    destruct (step_trace _ _ _ Hs) as [E|[e E]]; rewrite E in Htr.
    + by apply Hh.
    + apply prefix_snoc_cases in Htr as [Htr| ->]; [by apply Hh|].
      rewrite <- E. by apply consistent_ordered.
Qed.

Lemma init_shaped (w : Z) (cb : T → S → S) tm0 n (w0 : S) :
  NewThreadManager w cb = Ok tm0 → shaped (init tm0 n w0).
Proof.
  intros [Hw ->]%fresh_pool. repeat split; try done.
  apply Forall_replicate. done.
Qed.

Lemma step_shaped a st st' : shaped st → step a st = Some st' → shaped st'.
Proof.
  intros (Hcap & Hloop & Hpos & Hrun) Hstep.
  unfold step, when_idle in Hstep. destruct (crashed st); [done|].
  unfold shaped.
  destruct a as [c|c|c x|c|c|c|w].
  - destruct (callers st !! c) as [[| |]|]; simplify_eq.
    split_and!; try done. by apply Forall_insert.
  - destruct (callers st !! c) as [[|i|]|] eqn:Hc; simplify_eq.
    pose proof (Forall_lookup_1 _ _ _ _ Hloop Hc) as Hi. simpl in Hi.
    destruct (i <? workers (tm st))%Z eqn:Hlt; simplify_eq.
    + apply Z.ltb_lt in Hlt. cbn. split_and!; try done.
      * apply Forall_insert; [done|]. simpl. lia.
      * intros _. lia.
      * intros Hop. apply Forall_app. split; [by apply Hrun|].
        by repeat constructor.
    + split_and!; try done. by apply Forall_insert.
  - destruct (callers st !! c) as [[| |]|]; simplify_eq.
    split_and!; try done. by apply Forall_insert.
  - destruct (callers st !! c) as [[| |x]|]; simplify_eq.
    unfold Feed_send, chan_send in Hstep.
    destruct (closed (channel (tm st))) eqn:Hcl; simplify_eq.
    { split_and!; try done. cbn. by rewrite Hcl. }
    destruct (Z.of_nat (length (buf (channel (tm st)))) <? cap (channel (tm st)))%Z;
      simplify_eq.
    cbn. split_and!; try done. by apply Forall_insert.
  - destruct (callers st !! c) as [[| |]|]; simplify_eq. by split_and!.
  - destruct (callers st !! c) as [[| |]|]; simplify_eq.
    unfold Stop, chan_close in Hstep.
    destruct (closed (channel (tm st))) eqn:Hcl; cbn [obind] in Hstep;
      simplify_eq; split_and!; try done; cbn; by rewrite ?Hcl.
  - assert (Hins : ∀ s, running s →
              closed (channel (tm st)) = false →
              Forall running (<[w := s]> (pool st))).
    { intros s Hs Hop. apply Forall_insert; [by apply Hrun|done]. }
    assert (Hlen : ∀ s, <[w := s]> (pool st) ≠ [] → pool st ≠ []).
    { intros s Hne E. by rewrite E in Hne. }
    destruct (pool st !! w) as [[|x|x|x|]|] eqn:Hw; simplify_eq.
    + unfold worker_recv, chan_recv in Hstep.
      destruct (buf (channel (tm st))) as [|x rest].
      * destruct (closed (channel (tm st))) eqn:Hcl; simplify_eq.
        cbn. rewrite Hcl. split_and!; eauto. done.
      * simplify_eq. cbn. split_and!; eauto. intros. by apply Hins.
    + cbn. split_and!; eauto. intros. by apply Hins.
    + cbn. split_and!; eauto. intros. by apply Hins.
    + cbn. split_and!; eauto. intros. by apply Hins.
Qed.

Lemma run_shaped sched st st' :
  shaped st → run sched st = Some st' → shaped st'.
Proof.
  revert st. induction sched as [|a sched IH]; intros st Hc Hr; simpl in Hr.
  - by simplify_eq.
  - destruct (step a st) as [st1|] eqn:Hs; [|done].
    eauto using step_shaped.
Qed.

(** While work is left in a drainable pool, some goroutine can take a
    step that brings an item closer to done, without any new Feed. *)
Lemma drain_step st :
  drainable st → work_left st ≠ 0 →
  ∃ a st', step a st = Some st' ∧ drainable st' ∧
           work_left st' < work_left st ∧
           fed (trace st') = fed (trace st).
Proof.
  intros (Hlive & Hopen & Hcap & Hpool & Hrun) Hwork.
  unfold work_left, drainable, step, sending, got, calling, finishing in *.
  rewrite Hlive.
  assert (Hkeep : ∀ w s s', pool st !! w = Some s → running s' →
            <[w := s']> (pool st) ≠ [] ∧ Forall running (<[w := s']> (pool st))).
  { intros w s s' Hw Hs'. split.
    - intros E. apply (f_equal length) in E. rewrite length_insert in E.
      by destruct (pool st).
    - by apply Forall_insert. }
  destruct (decide (omap to_decr (pool st) = [])) as [Ef|Hf].
  2: { apply omap_nonempty in Hf as (w & s & x & Hw & Hs).
       destruct s; simpl in Hs; simplify_eq. exists (ActWork w). rewrite Hw. eexists.
       split; [done|]. destruct (Hkeep w _ WRecv Hw) as [? ?]; [done|].
       views.
       pose proof (omap_insert_length has_got _ _ _ WRecv Hw).
       pose proof (omap_insert_length in_call _ _ _ WRecv Hw).
       pose proof (omap_insert_length to_decr _ _ _ WRecv Hw).
       simpl in *. split_and!; try done; lia. }
  destruct (decide (omap in_call (pool st) = [])) as [Ec|Hc].
  2: { apply omap_nonempty in Hc as (w & s & x & Hw & Hs).
       destruct s; simpl in Hs; simplify_eq. exists (ActWork w). rewrite Hw. eexists.
       split; [done|]. destruct (Hkeep w _ (WDecr x) Hw) as [? ?]; [done|].
       views.
       pose proof (omap_insert_length has_got _ _ _ (WDecr x) Hw).
       pose proof (omap_insert_length in_call _ _ _ (WDecr x) Hw).
       pose proof (omap_insert_length to_decr _ _ _ (WDecr x) Hw).
       simpl in *. split_and!; try done; lia. }
  destruct (decide (omap has_got (pool st) = [])) as [Eg|Hg].
  2: { apply omap_nonempty in Hg as (w & s & x & Hw & Hs).
       destruct s; simpl in Hs; simplify_eq. exists (ActWork w). rewrite Hw. eexists.
       split; [done|]. destruct (Hkeep w _ (WCall x) Hw) as [? ?]; [done|].
       views.
       pose proof (omap_insert_length has_got _ _ _ (WCall x) Hw).
       pose proof (omap_insert_length in_call _ _ _ (WCall x) Hw).
       pose proof (omap_insert_length to_decr _ _ _ (WCall x) Hw).
       simpl in *. split_and!; try done; lia. }
  rewrite Ef, Ec, Eg in Hwork. simpl in Hwork.
  destruct (buf (channel (tm st))) as [|x rest] eqn:Hbuf.
  - (* the buffer is empty: a pending send goes through *)
    destruct (decide (omap feeding (callers st) = [])) as [Es|Hs].
    { rewrite Es in Hwork. simpl in Hwork. lia. }
    apply omap_nonempty in Hs as (c & s & x & Hc & Hs).
    destruct s; simpl in Hs; simplify_eq. exists (ActSend c). rewrite Hc.
    unfold Feed_send, chan_send. rewrite Hopen, Hbuf.
    destruct (Z.of_nat (length (@nil T)) <? cap (channel (tm st)))%Z eqn:Hlt.
    2: { apply Z.ltb_ge in Hlt. simpl in Hlt. lia. }
    eexists. split; [done|]. views.
    pose proof (omap_insert_length feeding _ _ _ CIdle Hc).
    rewrite Ef, Ec, Eg. simpl in *. repeat split; try done; lia.
  - (* an item is buffered: a worker at the receive takes it *)
    destruct (pool st) as [|s ws] eqn:Hp; [done|].
    assert (Hs : s = WRecv).
    { apply Forall_cons_1 in Hrun as [Hs _]. unfold running in Hs.
      destruct s; csimpl in *; simplify_eq; done. }
    subst s. exists (ActWork 0). cbn [lookup list_lookup].
    unfold worker_recv, chan_recv. rewrite Hbuf.
    eexists. split; [done|]. views. rewrite Hp. csimpl in *.
    rewrite Ef, Ec, Eg. simpl.
    apply Forall_cons_1 in Hrun as [_ Hrun].
    repeat split; try done; try lia.
    constructor; [done|done].
Qed.

(** A drainable pool can always be run to a state with nothing in
    flight, by the goroutines already there and without a further Feed. *)
Lemma drain st :
  drainable st →
  ∃ sched st', run sched st = Some st' ∧ drainable st' ∧ quiescent st' ∧
               fed (trace st') = fed (trace st).
Proof.
  remember (work_left st) as n eqn:Hn. revert st Hn.
  induction n as [n IH] using lt_wf_ind. intros st Hn Hd.
  destruct (decide (work_left st = 0)) as [Hz|Hnz].
  - exists [], st. split; [done|]. split; [done|]. split; [|done].
    unfold quiescent, work_left in *.
    split_and!;
      match goal with |- ?l = [] => destruct l; [done | simpl in Hz; lia] end.
  - destruct (drain_step st Hd Hnz) as (a & st1 & Hs & Hd1 & Hlt & Hfed).
    destruct (IH (work_left st1) ltac:(lia) st1 eq_refl Hd1)
      as (sched & st' & Hr & Hd' & Hq & Hfed').
    exists (a :: sched), st'. simpl. rewrite Hs.
    split; [done|]. split; [done|]. split; [done|]. congruence.
Qed.

(** A worker holds at most one item. *)
Lemma held_le_pool (ws : list (worker T)) :
  length (got ws) + length (calling ws) + length (finishing ws) ≤ length ws.
Proof.
  unfold got, calling, finishing.
  induction ws as [|[|x|x|x|] ws IH]; csimpl; lia.
Qed.

(** The counter's argument, itemised. *)
Lemma in_flight_split st :
  consistent st →
  in_flight st =
    Z.of_nat (length (sending (callers st)) + length (buf (channel (tm st)))
              + length (got (pool st)) + length (calling (pool st))
              + length (finishing (pool st))).
Proof.
  intros [Hfed Hfifo Hdeq Hcall Hret _ _]. unfold in_flight.
  apply Permutation_length in Hfed, Hdeq, Hcall, Hret.
  apply (f_equal length) in Hfifo.
  rewrite !length_app in *. lia.
Qed.

Lemma in_flight_bound st :
  consistent st → bounded st → (0 ≤ in_flight st < 2 ^ 64)%Z.
Proof.
  intros Hc Hb. rewrite (in_flight_split st Hc).
  pose proof (held_le_pool (pool st)).
  pose proof (omap_length_le feeding (callers st)).
  pose proof (c_room st Hc). unfold bounded, sending in *. lia.
Qed.

(** The loop of Start, from loop variable [i] with [k] workers still to
    launch, launches exactly those and leaves the caller idle. *)
Lemma Start_loop_runs (k : nat) st (c : nat) (i : Z) :
  crashed st = None → callers st !! c = Some (CStart i) →
  (i + Z.of_nat k = workers (tm st))%Z →
  ∃ st', run (replicate (k + 1) (ActLoop c)) st = Some st' ∧
    pool st' = pool st ++ replicate k WRecv ∧
    callers st' = <[c := CIdle]> (callers st) ∧
    tm st' = tm st ∧ trace st' = trace st ∧ world st' = world st ∧
    crashed st' = None.
Proof.
  revert st i. induction k as [|k IH]; intros st i Hlive Hc Hi.
  - simpl. unfold step. rewrite Hlive, Hc.
    destruct (i <? workers (tm st))%Z eqn:Hlt; [apply Z.ltb_lt in Hlt; lia|].
    eexists. split; [done|]. simpl. by rewrite app_nil_r.
  - cbn [replicate Nat.add run]. unfold step at 1. rewrite Hlive, Hc.
    destruct (i <? workers (tm st))%Z eqn:Hlt; [|apply Z.ltb_ge in Hlt; lia].
    pose proof (lookup_lt_Some _ _ _ Hc) as Hlen.
    destruct (IH (set_caller c (CStart (i + 1)) (spawn st)) (i + 1)%Z)
      as (st' & Hr & Hp & Hcs & Htm & Htr & Hw & Hl).
    + done.
    + cbn. by apply list_lookup_insert_eq.
    + cbn. lia.
    + exists st'. split; [done|]. cbn in *.
      rewrite Hp, Hcs, Htm, Htr, Hw, Hl, list_insert_insert_eq.
      by rewrite <- app_assoc.
Qed.

(** X15: Start, run to its end, launches exactly [workers] workers, each
    at the receive, on top of those already there (a second Start
    doubles them), and changes nothing else. *)
Lemma Start_runs st (c : nat) :
  crashed st = None → callers st !! c = Some CIdle →
  (0 ≤ workers (tm st))%Z →
  ∃ st', run (Start c (tm st)) st = Some st' ∧
    pool st' = pool st ++ replicate (Z.to_nat (workers (tm st))) WRecv ∧
    callers st' = callers st ∧
    tm st' = tm st ∧ trace st' = trace st ∧ world st' = world st ∧
    crashed st' = None.
Proof.
  intros Hlive Hc Hw. unfold Start. cbn [run]. unfold step at 1, when_idle.
  rewrite Hlive, Hc.
  pose proof (lookup_lt_Some _ _ _ Hc) as Hlen.
  destruct (Start_loop_runs (Z.to_nat (workers (tm st)))
              (set_caller c (CStart 0) st) c 0)
    as (st' & Hr & Hp & Hcs & Htm & Htr & Hwd & Hl).
  - done.
  - cbn. by apply list_lookup_insert_eq.
  - cbn. lia.
  - exists st'. split; [done|]. cbn in *.
    rewrite Hp, Hcs, Htm, Htr, Hwd, Hl, list_insert_insert_eq.
    by rewrite list_insert_id.
Qed.

(** Feed on an open channel with room: the counter goes up by one, the
    item goes to the back of the queue, the increment is logged before
    the enqueue. *)
Lemma Feed_runs st (c : nat) (x : T) :
  crashed st = None → callers st !! c = Some CIdle →
  closed (channel (tm st)) = false →
  (Z.of_nat (length (buf (channel (tm st)))) < cap (channel (tm st)))%Z →
  ∃ st', run (Feed c x) st = Some st' ∧
    counter (tm st') = add_int64 (counter (tm st)) 1 ∧
    buf (channel (tm st')) = buf (channel (tm st)) ++ [x] ∧
    callers st' = callers st ∧ pool st' = pool st ∧
    trace st' = trace st ++ [EvFeed x; EvEnq x] ∧ crashed st' = None.
Proof.
  intros Hlive Hc Hopen Hroom. unfold Feed. cbn [run].
  unfold step at 1, when_idle. rewrite Hlive, Hc.
  pose proof (lookup_lt_Some _ _ _ Hc) as Hlen.
  unfold step. cbn. rewrite Hlive, list_lookup_insert_eq by done.
  unfold Feed_send, chan_send. cbn. rewrite Hopen.
  apply Z.ltb_lt in Hroom. rewrite Hroom.
  eexists. split; [done|]. cbn.
  rewrite list_insert_insert_eq, list_insert_id by done.
  by rewrite <- app_assoc.
Qed.

(** The counter is a proper int64, and it is the number of items in
    flight as long as that number fits. *)
Lemma counter_in_range st : consistent st → in_int64 (counter (tm st)).
Proof. intros Hc. rewrite (c_counter st Hc). apply wrap64_range. Qed.

Lemma counter_exact st :
  consistent st → (in_flight st < 2 ^ 63)%Z → counter (tm st) = in_flight st.
Proof.
  intros Hc Hlt. rewrite (c_counter st Hc). apply wrap64_id.
  pose proof (in_flight_split st Hc). unfold in_int64. lia.
Qed.

(** With nothing in flight, every stage of the pipeline has seen the
    same items and the counter is 0. *)
Lemma quiescent_settled st :
  consistent st → quiescent st →
  invoked (trace st) ≡ₚ fed (trace st) ∧
  returned (trace st) ≡ₚ fed (trace st) ∧
  counter (tm st) = 0%Z.
Proof.
  intros Hcons (Hs & Hb & Hg & Hc & Hf).
  pose proof (in_flight_split st Hcons) as Hfl.
  destruct Hcons as [Hfed Hfifo Hdeq Hcall Hret Hcnt _].
  rewrite Hs, Hb, Hg, Hc, Hf in *. rewrite ?app_nil_r in *.
  split_and!.
  - by rewrite Hfed, Hfifo, Hdeq.
  - by rewrite Hfed, Hfifo, Hdeq, Hcall.
  - rewrite Hcnt, Hfl. reflexivity.
Qed.

(** X16: a started pool whose channel is open never gets stuck with work
    left: from any state it has reached, its workers and pending sends
    can run on to a state with nothing in flight, in which every item fed
    so far has been processed and IsDone is true. *)
Lemma pool_drains (w : Z) (cb : T → S → S) (tm0 : ThreaderManager T S) n (w0 : S) st :
  NewThreadManager w cb = Ok tm0 →
  reachable_from (init tm0 n w0) st →
  crashed st = None → closed (channel (tm st)) = false → pool st ≠ [] →
  ∃ sched st',
    run sched st = Some st' ∧ quiescent st' ∧
    fed (trace st') = fed (trace st) ∧
    invoked (trace st') ≡ₚ fed (trace st) ∧
    IsDone (tm st') = true.
Proof.
  intros Hnew Hreach Hlive Hopen Hpool.
  pose proof (reachable_consistent _ _ _ _ _ _ Hnew Hreach) as Hcons.
  assert (Hshape : shaped st).
  { destruct Hreach as [sched Hrun].
    eapply run_shaped; [|done]. by eapply init_shaped. }
  destruct Hshape as (Hcap & _ & Hpos & Hrun).
  assert (Hd : drainable st).
  { split_and!; try done; [rewrite Hcap|]; auto. }
  destruct (drain st Hd) as (sched & st' & Hr & _ & Hq & Hfed).
  pose proof (run_consistent _ _ _ Hcons Hr) as Hcons'.
  destruct (quiescent_settled st' Hcons' Hq) as (Hinv & _ & Hzero).
  exists sched, st'. split_and!; try done.
  - by rewrite Hinv, Hfed.
  - unfold IsDone. by rewrite Hzero.
Qed.

(** ** What never changes *)

Lemma step_same_setup a st st' : step a st = Some st' → same_setup st st'.
Proof.
  intros Hstep. unfold step, when_idle in Hstep.
  destruct (crashed st); [done|]. unfold same_setup.
  destruct a as [c|c|c x|c|c|c|w].
  - destruct (callers st !! c) as [[| |]|]; simplify_eq.
    cbn. by rewrite length_insert.
  - destruct (callers st !! c) as [[|i|]|]; simplify_eq.
    destruct (i <? workers (tm st))%Z; simplify_eq; cbn;
      rewrite length_insert, ?length_app; split_and!; try done; simpl; lia.
  - destruct (callers st !! c) as [[| |]|]; simplify_eq.
    cbn. by rewrite length_insert.
  - destruct (callers st !! c) as [[| |x]|]; simplify_eq.
    unfold Feed_send, chan_send in Hstep.
    destruct (closed (channel (tm st))); simplify_eq; [done|].
    destruct (Z.of_nat (length (buf (channel (tm st)))) <? cap (channel (tm st)))%Z;
      simplify_eq.
    cbn. by rewrite length_insert.
  - destruct (callers st !! c) as [[| |]|]; by simplify_eq.
  - destruct (callers st !! c) as [[| |]|]; simplify_eq.
    unfold Stop, chan_close in Hstep.
    destruct (closed (channel (tm st))); cbn [obind] in Hstep; by simplify_eq.
  - destruct (pool st !! w) as [[|x|x|x|]|]; simplify_eq;
      try (cbn; by rewrite length_insert).
    unfold worker_recv, chan_recv in Hstep.
    destruct (buf (channel (tm st))) as [|x rest].
    + destruct (closed (channel (tm st))); simplify_eq.
      cbn. by rewrite length_insert.
    + simplify_eq. cbn. by rewrite length_insert.
Qed.

Lemma run_same_setup sched st st' : run sched st = Some st' → same_setup st st'.
Proof.
  revert st. induction sched as [|a sched IH]; intros st Hr; simpl in Hr.
  - simplify_eq. by unfold same_setup.
  - destruct (step a st) as [st1|] eqn:Hs; [|done].
    destruct (step_same_setup _ _ _ Hs) as (H1 & H2 & H3 & H4 & H5).
    destruct (IH _ Hr) as (G1 & G2 & G3 & G4 & G5).
    unfold same_setup. split_and!; try congruence. lia.
Qed.

(** X1: whatever is called on a pool, in whatever interleaving, the
    worker count, the callback and the queue's capacity stay what
    NewThreadManager was given: nothing writes these fields after the
    pool is built, neither a later Start nor Stop. *)
Theorem setup_is_immutable (w : Z) (cb : T → S → S) (tm0 : ThreaderManager T S) n (w0 : S) st :
  NewThreadManager w cb = Ok tm0 →
  reachable_from (init tm0 n w0) st →
  workers (tm st) = w ∧ callback (tm st) = cb ∧
  cap (channel (tm st)) = w ∧
  ∀ sched st', run sched st = Some st' →
    workers (tm st') = w ∧ callback (tm st') = cb ∧
    cap (channel (tm st')) = w.
Proof.
  intros [Hw ->]%fresh_pool [sched0 Hrun0].
  destruct (run_same_setup _ _ _ Hrun0) as (H1 & H2 & H3 & _).
  cbn in H1, H2, H3.
  split_and!; try done.
  intros sched st' Hrun.
  destruct (run_same_setup _ _ _ Hrun) as (G1 & G2 & G3 & _).
  split_and!; congruence.
Qed.

(** X2: the queue never holds more items than the worker count it was
    made with, and the send of a Feed on an open channel is blocked
    exactly when the queue holds that many. *)
Theorem queue_within_capacity (w : Z) (cb : T → S → S) (tm0 : ThreaderManager T S) n (w0 : S) st :
  NewThreadManager w cb = Ok tm0 →
  reachable_from (init tm0 n w0) st →
  (Z.of_nat (length (buf (channel (tm st)))) ≤ w)%Z ∧
  ∀ c x, crashed st = None → callers st !! c = Some (CFeed x) →
         closed (channel (tm st)) = false →
         (step (ActSend c) st = None ↔
          Z.of_nat (length (buf (channel (tm st)))) = w).
Proof.
  intros Hnew Hreach.
  pose proof (reachable_consistent _ _ _ _ _ _ Hnew Hreach) as Hcons.
  pose proof (c_room st Hcons) as Hroom.
  destruct Hreach as [sched0 Hrun0].
  destruct (run_same_setup _ _ _ Hrun0) as (_ & _ & Hcap & _ & _).
  apply fresh_pool in Hnew as [Hw ->]. cbn in Hcap.
  rewrite Hcap in Hroom. split; [lia|].
  intros c x Hlive Hc Hopen. unfold step. rewrite Hlive, Hc.
  unfold Feed_send, chan_send. rewrite Hopen, Hcap.
  destruct (Z.of_nat (length (buf (channel (tm st)))) <? w)%Z eqn:Hlt.
  - apply Z.ltb_lt in Hlt. split; [done|lia].
  - apply Z.ltb_ge in Hlt. split; [lia|done].
Qed.

(** X3: as long as the goroutines and the buffer together are fewer than
    2^63, the counter is exactly the number of items in flight: those of
    Feed calls between increment and send, those in the queue, and those
    a worker holds up to and including its decrement.  It is never
    negative. *)
Theorem counter_counts_in_flight (w : Z) (cb : T → S → S) (tm0 : ThreaderManager T S) n (w0 : S) st :
  NewThreadManager w cb = Ok tm0 →
  reachable_from (init tm0 n w0) st →
  small st →
  counter (tm st) =
    Z.of_nat (length (sending (callers st)) + length (buf (channel (tm st)))
              + length (got (pool st)) + length (calling (pool st))
              + length (finishing (pool st))) ∧
  (0 ≤ counter (tm st))%Z.
Proof.
  intros Hnew Hreach Hsmall.
  pose proof (reachable_consistent _ _ _ _ _ _ Hnew Hreach) as Hcons.
  pose proof (in_flight_split st Hcons) as Hsplit.
  pose proof (held_le_pool (pool st)).
  pose proof (omap_length_le feeding (callers st)).
  pose proof (c_room st Hcons).
  assert (Hlt : (in_flight st < 2 ^ 63)%Z).
  { rewrite Hsplit. unfold small, sending in *. lia. }
  rewrite (counter_exact st Hcons Hlt), Hsplit. split; [done|lia].
Qed.

(** ** One worker *)

Lemma step_serial a st st' :
  length (pool st') ≤ 1 → serial st → step a st = Some st' → serial st'.
Proof.
  intros Hone [Hdeq Hcall Hret] Hstep.
  unfold step, when_idle in Hstep. destruct (crashed st); [done|].
  destruct a as [c|c|c x|c|c|c|w].
  - destruct (callers st !! c) as [[| |]|]; simplify_eq. by split.
  - destruct (callers st !! c) as [[|i|]|]; simplify_eq.
    destruct (i <? workers (tm st))%Z; simplify_eq; split; views; done.
  - destruct (callers st !! c) as [[| |]|]; simplify_eq. split; views; done.
  - destruct (callers st !! c) as [[| |x]|]; simplify_eq.
    destruct (Feed_send (tm st) x) as [[tm'|m]|]; simplify_eq;
      split; views; done.
  - destruct (callers st !! c) as [[| |]|]; simplify_eq. split; views; done.
  - destruct (callers st !! c) as [[| |]|]; simplify_eq.
    destruct (Stop (tm st)); simplify_eq; split; views; done.
  - destruct (pool st) as [|s [|s' ws]] eqn:Hp.
    + done.
    + destruct w as [|w]; [|done]. cbn in Hstep.
      destruct s as [|x|x|x|]; simplify_eq.
      * destruct (worker_recv (tm st)) as [[[x|] tm']|]; simplify_eq;
          split; views; rewrite Hp in *; csimpl in *;
          rewrite ?app_nil_r in *; congruence.
      * split; views; rewrite Hp in *; csimpl in *;
          rewrite ?app_nil_r in *; congruence.
      * split; views; rewrite Hp in *; csimpl in *;
          rewrite ?app_nil_r in *; congruence.
      * split; views; rewrite Hp in *; csimpl in *;
          rewrite ?app_nil_r in *; congruence.
    + exfalso.
      assert (length (pool st') = length (pool st)) as Hlen.
      { destruct ((s :: s' :: ws) !! w) as [[|x|x|x|]|]; simplify_eq;
          try (cbn; by rewrite length_insert).
        destruct (worker_recv (tm st)) as [[[x|] tm']|]; simplify_eq;
          cbn; by rewrite length_insert. }
      rewrite Hlen, Hp in Hone. simpl in Hone. lia.
Qed.

Lemma run_serial sched st st' :
  length (pool st') ≤ 1 → serial st → run sched st = Some st' → serial st'.
Proof.
  revert st. induction sched as [|a sched IH]; intros st Hone Hser Hr;
    simpl in Hr.
  - by simplify_eq.
  - destruct (step a st) as [st1|] eqn:Hs; [|done].
    apply (IH st1); [done| |done].
    eapply step_serial; [|done|done].
    destruct (run_same_setup _ _ _ Hr) as (_ & _ & _ & _ & Hle). lia.
Qed.

(** X6: while the pool has a single worker, nothing overtakes: the
    callback is invoked, returns and is decremented for in exactly the
    order in which the items entered the queue. *)
Theorem single_worker_keeps_order (w : Z) (cb : T → S → S) (tm0 : ThreaderManager T S) n (w0 : S) st :
  NewThreadManager w cb = Ok tm0 →
  reachable_from (init tm0 n w0) st →
  length (pool st) ≤ 1 →
  enqueued (trace st) =
    acked (trace st) ++ finishing (pool st) ++ calling (pool st) ++
    got (pool st) ++ buf (channel (tm st)) ∧
  invoked (trace st) `prefix_of` enqueued (trace st) ∧
  returned (trace st) `prefix_of` enqueued (trace st).
Proof.
  intros Hnew Hreach Hone.
  pose proof (reachable_consistent _ _ _ _ _ _ Hnew Hreach) as Hcons.
  destruct Hreach as [sched Hrun].
  assert (Hser : serial st).
  { eapply run_serial; [done| |done]. by split. }
  destruct Hser as [Hdeq Hcall Hret].
  pose proof (c_fifo st Hcons) as Hfifo.
  assert (E : enqueued (trace st) =
              acked (trace st) ++ finishing (pool st) ++ calling (pool st) ++
              got (pool st) ++ buf (channel (tm st))).
  { rewrite Hfifo, Hdeq, Hcall, Hret. by rewrite <- !app_assoc. }
  split_and!; [done| |].
  - rewrite Hfifo, Hdeq. rewrite <- app_assoc. by eexists.
  - rewrite Hfifo, Hdeq, Hcall. rewrite <- !app_assoc. by eexists.
Qed.

(** ** How many workers *)

Lemma spawning_insert (W : Z) (cs : list (caller T)) (c : nat) (s s' : caller T) :
  cs !! c = Some s →
  spawning W (<[c := s']> cs) = (spawning W cs - to_spawn W s + to_spawn W s')%Z.
Proof.
  revert c. induction cs as [|c0 cs IH]; intros c Hc; [done|].
  destruct c as [|c]; simpl in *.
  - simplify_eq. lia.
  - rewrite (IH c Hc). lia.
Qed.

Lemma spawning_nonneg (W : Z) (cs : list (caller T)) :
  Forall (loop_in_range W) cs → (0 ≤ spawning W cs)%Z.
Proof.
  induction 1 as [|c cs Hc _ IH]; simpl; [done|].
  destruct c; simpl in *; lia.
Qed.

Lemma spawning_none (W : Z) (cs : list (caller T)) :
  Forall (λ c, ∀ i, c ≠ CStart i) cs → spawning W cs = 0%Z.
Proof.
  induction 1 as [|c cs Hc _ IH]; simpl; [done|].
  destruct c as [|i|]; simpl; try lia. by destruct (Hc i).
Qed.

Ltac fields :=
  cbn [trace log set_caller set_worker set_tm set_world spawn crash
       tm callers pool world crashed].

Lemma step_budget (W : Z) (k : nat) a st st' :
  (0 ≤ W)%Z → workers (tm st) = W → budget W k st →
  step a st = Some st' → budget W (k + starts_of [a]) st'.
Proof.
  intros HW Hws [Hsum Hrange] Hstep.
  unfold step, when_idle in Hstep. destruct (crashed st); [done|].
  unfold budget, starts_of.
  destruct a as [c|c|c x|c|c|c|w]; csimpl; rewrite ?Nat.add_0_r.
  - destruct (callers st !! c) as [[| |]|] eqn:Hc; simplify_eq. fields.
    rewrite (spawning_insert _ _ _ _ _ Hc). simpl.
    split; [lia|]. apply Forall_insert; [done|]. simpl. lia.
  - destruct (callers st !! c) as [[|i|]|] eqn:Hc; simplify_eq.
    pose proof (Forall_lookup_1 _ _ _ _ Hrange Hc) as Hi. simpl in Hi.
    destruct (i <? workers (tm st))%Z eqn:Hlt; simplify_eq; fields;
      rewrite (spawning_insert _ _ _ _ _ Hc); simpl.
    + apply Z.ltb_lt in Hlt. rewrite length_app. simpl.
      split; [lia|]. apply Forall_insert; [done|]. simpl. lia.
    + apply Z.ltb_ge in Hlt. split; [lia|]. by apply Forall_insert.
  - destruct (callers st !! c) as [[| |]|] eqn:Hc; simplify_eq. fields.
    rewrite (spawning_insert _ _ _ _ _ Hc). simpl.
    split; [lia|]. by apply Forall_insert.
  - destruct (callers st !! c) as [[| |x]|] eqn:Hc; simplify_eq.
    destruct (Feed_send (tm st) x) as [[tm'|m]|]; simplify_eq; fields; [|done].
    rewrite (spawning_insert _ _ _ _ _ Hc). simpl.
    split; [lia|]. by apply Forall_insert.
  - destruct (callers st !! c) as [[| |]|]; by simplify_eq.
  - destruct (callers st !! c) as [[| |]|]; simplify_eq.
    destruct (Stop (tm st)); by simplify_eq.
  - destruct (pool st !! w) as [[|x|x|x|]|]; simplify_eq;
      try (fields; by rewrite length_insert).
    destruct (worker_recv (tm st)) as [[[x|] tm']|]; simplify_eq;
      fields; by rewrite length_insert.
Qed.

Lemma run_budget (W : Z) (k : nat) sched st st' :
  (0 ≤ W)%Z → workers (tm st) = W → budget W k st →
  run sched st = Some st' → budget W (k + starts_of sched) st'.
Proof.
  intros HW. revert k st.
  induction sched as [|a sched IH]; intros k st Hws Hb Hr; simpl in Hr.
  - simplify_eq. unfold starts_of. simpl. by rewrite Nat.add_0_r.
  - destruct (step a st) as [st1|] eqn:Hs; [|done].
    pose proof (step_budget _ _ _ _ _ HW Hws Hb Hs) as Hb1.
    destruct (step_same_setup _ _ _ Hs) as (Hws1 & _).
    rewrite Hws in Hws1.
    pose proof (IH _ _ Hws1 Hb1 Hr) as Hb'.
    replace (k + starts_of (a :: sched))
      with (k + starts_of [a] + starts_of sched); [done|].
    unfold starts_of. destruct a; csimpl; lia.
Qed.

Lemma calling_le_active (ws : list (worker T)) :
  length (calling ws) ≤ length (omap active ws).
Proof.
  unfold calling. induction ws as [|s ws IH]; [done|].
  destruct s; csimpl; lia.
Qed.

Lemma running_all_active (ws : list (worker T)) :
  Forall running ws → length (omap active ws) = length ws.
Proof.
  induction 1 as [|s ws Hs _ IH]; [done|].
  destruct s; csimpl; [lia..|]. by destruct Hs.
Qed.

(** X10: concurrency is bounded by the worker count.  The worker
    goroutines that have not returned, and so the callbacks running at
    any moment, are at most [workers] per call of Start made so far; and
    while the channel is open and no caller is inside Start, the worker
    goroutines are exactly that many. *)
Theorem concurrency_is_bounded (w : Z) (cb : T → S → S) (tm0 : ThreaderManager T S)
    n (w0 : S) sched st :
  NewThreadManager w cb = Ok tm0 →
  run sched (init tm0 n w0) = Some st →
  (Z.of_nat (length (calling (pool st))) ≤ w * Z.of_nat (starts_of sched))%Z ∧
  (Z.of_nat (length (omap active (pool st))) ≤ w * Z.of_nat (starts_of sched))%Z ∧
  (closed (channel (tm st)) = false →
   Forall (λ c, ∀ i, c ≠ CStart i) (callers st) →
   Z.of_nat (length (omap active (pool st))) = (w * Z.of_nat (starts_of sched))%Z).
Proof.
  intros Hnew Hrun.
  assert (Hsh : shaped st).
  { eapply run_shaped; [|exact Hrun]. by eapply init_shaped. }
  apply fresh_pool in Hnew as [Hw ->].
  assert (Hb0 : budget w 0 (init (MkTM (Chan [] w false) w cb 0) n w0)).
  { split; cbn [init pool callers].
    - rewrite spawning_none; [simpl; lia|]. by apply Forall_replicate.
    - by apply Forall_replicate. }
  assert (Hb : budget w (0 + starts_of sched) st).
  { eapply run_budget; [exact Hw| |exact Hb0|exact Hrun]. done. }
  destruct Hb as [Hsum Hrange].
  simpl in Hsum.
  pose proof (spawning_nonneg _ _ Hrange).
  pose proof (calling_le_active (pool st)).
  pose proof (omap_length_le active (pool st)).
  split_and!; [lia|lia|].
  intros Hopen Hnone. destruct Hsh as (_ & _ & _ & Hrunning).
  rewrite (running_all_active _ (Hrunning Hopen)).
  rewrite (spawning_none _ _ Hnone) in Hsum. lia.
Qed.

(** ** After Stop *)

Lemma insert_exited (ws : list (worker T)) (w w' : nat) (s' : worker T) :
  s' ≠ WExit → <[w := s']> ws !! w' = Some WExit → ws !! w' = Some WExit.
Proof.
  intros Hs' Hw'. destruct (decide (w = w')) as [->|Hne].
  - destruct (decide (w' < length ws)) as [Hlt|Hge].
    + rewrite list_lookup_insert_eq in Hw' by done. by simplify_eq.
    + by rewrite list_insert_ge in Hw' by lia.
  - by rewrite list_lookup_insert_ne in Hw'.
Qed.

Lemma step_no_orphans a st st' :
  shaped st → no_orphans st → step a st = Some st' → no_orphans st'.
Proof.
  intros (_ & _ & _ & Hrun) Horph Hstep.
  unfold step, when_idle in Hstep. destruct (crashed st); [done|].
  unfold no_orphans in *.
  destruct a as [c|c|c x|c|c|c|w].
  - destruct (callers st !! c) as [[| |]|]; by simplify_eq.
  - destruct (callers st !! c) as [[|i|]|]; simplify_eq.
    destruct (i <? workers (tm st))%Z; simplify_eq; [|done].
    cbn. intros w Hw. apply (Horph w).
    apply lookup_app_Some in Hw as [Hw|[_ Hw]]; [done|].
    by destruct (w - length (pool st)).
  - destruct (callers st !! c) as [[| |]|]; by simplify_eq.
  - destruct (callers st !! c) as [[| |x]|]; simplify_eq.
    unfold Feed_send, chan_send in Hstep.
    destruct (closed (channel (tm st))) eqn:Hcl; simplify_eq; [done|].
    destruct (Z.of_nat (length (buf (channel (tm st)))) <? cap (channel (tm st)))%Z;
      simplify_eq.
    cbn. intros w Hw. exfalso.
    by apply (Forall_lookup_1 _ _ _ _ (Hrun eq_refl) Hw).
  - destruct (callers st !! c) as [[| |]|]; by simplify_eq.
  - destruct (callers st !! c) as [[| |]|]; simplify_eq.
    unfold Stop, chan_close in Hstep.
    destruct (closed (channel (tm st))); cbn [obind] in Hstep; by simplify_eq.
  - destruct (pool st !! w) as [[|x|x|x|]|] eqn:Hw; simplify_eq.
    + unfold worker_recv, chan_recv in Hstep.
      destruct (buf (channel (tm st))) as [|x rest] eqn:Hbuf.
      * destruct (closed (channel (tm st))); simplify_eq. cbn. by rewrite Hbuf.
      * simplify_eq. cbn. intros w' Hw'.
        apply insert_exited in Hw'; [|done]. by apply Horph in Hw'.
    + cbn. intros w' Hw'. apply insert_exited in Hw'; [|done]. eauto.
    + cbn. intros w' Hw'. apply insert_exited in Hw'; [|done]. eauto.
    + cbn. intros w' Hw'. apply insert_exited in Hw'; [|done]. eauto.
Qed.

Lemma run_no_orphans sched st st' :
  shaped st → no_orphans st → run sched st = Some st' → no_orphans st'.
Proof.
  revert st. induction sched as [|a sched IH]; intros st Hsh Ho Hr; simpl in Hr.
  - by simplify_eq.
  - destruct (step a st) as [st1|] eqn:Hs; [|done].
    eauto using step_shaped, step_no_orphans.
Qed.

(** After Stop, with no Feed under way, some worker can always take a
    step towards the end: process on, or leave its loop. *)
Lemma closing_step st :
  closing st → steps_left st ≠ 0 →
  ∃ a st', step a st = Some st' ∧ closing st' ∧
           steps_left st' < steps_left st ∧
           fed (trace st') = fed (trace st).
Proof.
  intros (Hlive & Hcl & Hsend & Hpool & Horph) Hleft.
  unfold steps_left, work_left, closing, no_orphans, step,
    sending, got, calling, finishing in *.
  rewrite Hlive.
  assert (Hkeep : ∀ w s s', pool st !! w = Some s → <[w := s']> (pool st) ≠ []).
  { intros w s s' Hw E. apply (f_equal length) in E.
    rewrite length_insert in E. by destruct (pool st). }
  destruct (decide (omap to_decr (pool st) = [])) as [Ef|Hf].
  2: { apply omap_nonempty in Hf as (w & s & x & Hw & Hs).
       destruct s; simpl in Hs; simplify_eq. exists (ActWork w). rewrite Hw.
       eexists. split; [done|]. views.
       pose proof (omap_insert_length has_got _ _ _ WRecv Hw).
       pose proof (omap_insert_length in_call _ _ _ WRecv Hw).
       pose proof (omap_insert_length to_decr _ _ _ WRecv Hw).
       pose proof (omap_insert_length active _ _ _ WRecv Hw).
       simpl in *. split_and!; eauto; try lia.
       intros w' Hw'. apply insert_exited in Hw'; [|done]. eauto. }
  destruct (decide (omap in_call (pool st) = [])) as [Ec|Hc].
  2: { apply omap_nonempty in Hc as (w & s & x & Hw & Hs).
       destruct s; simpl in Hs; simplify_eq. exists (ActWork w). rewrite Hw.
       eexists. split; [done|]. views.
       pose proof (omap_insert_length has_got _ _ _ (WDecr x) Hw).
       pose proof (omap_insert_length in_call _ _ _ (WDecr x) Hw).
       pose proof (omap_insert_length to_decr _ _ _ (WDecr x) Hw).
       pose proof (omap_insert_length active _ _ _ (WDecr x) Hw).
       simpl in *. split_and!; eauto; try lia.
       intros w' Hw'. apply insert_exited in Hw'; [|done]. eauto. }
  destruct (decide (omap has_got (pool st) = [])) as [Eg|Hg].
  2: { apply omap_nonempty in Hg as (w & s & x & Hw & Hs).
       destruct s; simpl in Hs; simplify_eq. exists (ActWork w). rewrite Hw.
       eexists. split; [done|]. views.
       pose proof (omap_insert_length has_got _ _ _ (WCall x) Hw).
       pose proof (omap_insert_length in_call _ _ _ (WCall x) Hw).
       pose proof (omap_insert_length to_decr _ _ _ (WCall x) Hw).
       pose proof (omap_insert_length active _ _ _ (WCall x) Hw).
       simpl in *. split_and!; eauto; try lia.
       intros w' Hw'. apply insert_exited in Hw'; [|done]. eauto. }
  assert (Hrecv : ∀ w s, pool st !! w = Some s → s ≠ WExit → s = WRecv).
  { intros w s Hw Hne. destruct s as [|x|x|x|]; try done; exfalso.
    - by apply (omap_lookup_nonempty has_got _ _ _ x Hw).
    - by apply (omap_lookup_nonempty in_call _ _ _ x Hw).
    - by apply (omap_lookup_nonempty to_decr _ _ _ x Hw). }
  rewrite Hsend, Ef, Ec, Eg in Hleft. simpl in Hleft.
  destruct (buf (channel (tm st))) as [|x rest] eqn:Hbuf.
  - (* nothing queued: a worker at the receive finds the channel closed *)
    simpl in Hleft.
    destruct (decide (omap active (pool st) = [])) as [Ea|Ha].
    { rewrite Ea in Hleft. done. }
    apply omap_nonempty in Ha as (w & s & u & Hw & Hs).
    assert (s = WRecv) as ->.
    { apply (Hrecv w); [done|]. intros ->. done. }
    exists (ActWork w). rewrite Hw. unfold worker_recv, chan_recv.
    rewrite Hbuf, Hcl. eexists. split; [done|]. views.
    pose proof (omap_insert_length has_got _ _ _ WExit Hw).
    pose proof (omap_insert_length in_call _ _ _ WExit Hw).
    pose proof (omap_insert_length to_decr _ _ _ WExit Hw).
    pose proof (omap_insert_length active _ _ _ WExit Hw).
    rewrite Hbuf. simpl in *. split_and!; eauto; lia.
  - (* an item is queued: no worker has left, the first one takes it *)
    destruct (pool st) as [|s ws] eqn:Hp; [done|].
    assert (s = WRecv) as ->.
    { apply (Hrecv 0); [done|]. intros ->. by specialize (Horph 0 eq_refl). }
    exists (ActWork 0). cbn [lookup list_lookup].
    unfold worker_recv, chan_recv. rewrite Hbuf.
    eexists. split; [done|]. views. rewrite Hp. csimpl in *.
    rewrite Ef, Ec, Eg. simpl.
    split_and!; try done; try lia.
    intros [|w'] Hw'; [done|]. by specialize (Horph (Datatypes.S w') Hw').
Qed.

Lemma closing_drains st :
  closing st →
  ∃ sched st', run sched st = Some st' ∧ closing st' ∧ steps_left st' = 0 ∧
               fed (trace st') = fed (trace st).
Proof.
  remember (steps_left st) as k eqn:Hk. revert st Hk.
  induction k as [k IH] using lt_wf_ind. intros st Hk Hc.
  destruct (decide (steps_left st = 0)) as [Hz|Hnz].
  - by exists [], st.
  - destruct (closing_step st Hc Hnz) as (a & st1 & Hs & Hc1 & Hlt & Hfed).
    destruct (IH (steps_left st1) ltac:(lia) st1 eq_refl Hc1)
      as (sched & st' & Hr & Hc' & Hz' & Hfed').
    exists (a :: sched), st'. simpl. rewrite Hs.
    split; [done|]. split; [done|]. split; [done|]. congruence.
Qed.

Lemma no_active_all_exited (ws : list (worker T)) :
  omap active ws = [] → Forall exited ws.
Proof.
  induction ws as [|[|x|x|x|] ws IH]; csimpl; try done.
  intros H. constructor; [done|by apply IH].
Qed.

(** X7: Stop loses nothing.  From any state of a stopped pool that has
    workers and no Feed under way, the workers can run on to the end:
    everything still queued is received and processed, every item fed
    has then been through the callback once, the counter is 0, and every
    worker has left its loop. *)
Theorem Stop_loses_nothing (w : Z) (cb : T → S → S) (tm0 : ThreaderManager T S) n (w0 : S) st :
  NewThreadManager w cb = Ok tm0 →
  reachable_from (init tm0 n w0) st →
  crashed st = None → closed (channel (tm st)) = true →
  sending (callers st) = [] → pool st ≠ [] →
  ∃ sched st',
    run sched st = Some st' ∧ crashed st' = None ∧
    Forall exited (pool st') ∧ buf (channel (tm st')) = [] ∧
    fed (trace st') = fed (trace st) ∧
    returned (trace st') ≡ₚ fed (trace st) ∧
    IsDone (tm st') = true.
Proof.
  intros Hnew Hreach Hlive Hcl Hsend Hpool.
  pose proof (reachable_consistent _ _ _ _ _ _ Hnew Hreach) as Hcons.
  assert (Horph : no_orphans st).
  { destruct Hreach as [sched Hrun].
    eapply run_no_orphans; [by eapply init_shaped| |done]. by intros [|?]. }
  destruct (closing_drains st) as (sched & st' & Hr & Hc' & Hz & Hfed).
  { by split_and!. }
  pose proof (run_consistent _ _ _ Hcons Hr) as Hcons'.
  destruct Hc' as (Hlive' & _ & Hsend' & _ & _).
  unfold steps_left, work_left in Hz.
  assert (Hq : quiescent st').
  { unfold quiescent. split_and!; [done|..];
      match goal with |- ?l = [] => destruct l; [done | simpl in Hz; lia] end. }
  destruct (quiescent_settled st' Hcons' Hq) as (_ & Hret & Hzero).
  exists sched, st'. split_and!; try done.
  - apply no_active_all_exited.
    destruct (omap active (pool st')); [done | simpl in Hz; lia].
  - by destruct Hq as (_ & ? & _).
  - by rewrite Hret, Hfed.
  - unfold IsDone. by rewrite Hzero.
Qed.

(** ** Events and the steps that logged them *)

Lemma run_trace_prefix sched st st' :
  run sched st = Some st' → trace st `prefix_of` trace st'.
Proof.
  revert st. induction sched as [|a sched IH]; intros st Hr; simpl in Hr.
  - by simplify_eq.
  - destruct (step a st) as [st1|] eqn:Hs; [|done].
    etrans; [|by apply IH].
    destruct (step_trace _ _ _ Hs) as [->|[e ->]]; [done|].
    by apply prefix_app_r.
Qed.

(** Every event of the history was logged by one step of the run, taken
    in a state whose history was everything before that event. *)
Lemma run_event sched st0 st tr e :
  run sched st0 = Some st →
  tr ++ [e] `prefix_of` trace st →
  ¬ tr ++ [e] `prefix_of` trace st0 →
  ∃ s1 a s2 st1 st2,
    sched = s1 ++ a :: s2 ∧ run s1 st0 = Some st1 ∧
    step a st1 = Some st2 ∧ run s2 st2 = Some st ∧
    trace st1 = tr ∧ trace st2 = tr ++ [e].
Proof.
  revert st0. induction sched as [|a sched IH]; intros st0 Hr Hpre Hnot;
    simpl in Hr.
  - by simplify_eq.
  - destruct (step a st0) as [st1|] eqn:Hs; [|done].
    pose proof (run_trace_prefix _ _ _ Hr) as Hgrow.
    assert (Hhere : trace st1 = trace st0 ++ [e] ∧ tr = trace st0 ∨
                    ¬ tr ++ [e] `prefix_of` trace st1).
    { destruct (step_trace _ _ _ Hs) as [E|[e0 E]].
      - right. by rewrite E.
      - destruct (prefix_weak_total _ _ _ Hpre Hgrow) as [HA|HB].
        + rewrite E in HA.
          apply prefix_snoc_cases in HA as [HA|HA]; [done|].
          apply app_inj_tail in HA as [-> ->]. by left.
        + apply prefix_snoc_cases in HB as [HB|HB].
          * right. intros HA. apply prefix_length in HA, HB.
            rewrite length_app in HA. simpl in HA. lia.
          * rewrite E in HB. apply app_inj_tail in HB as [<- <-]. by left. }
    destruct Hhere as [[E ->]|Hnot1].
    + exists [], a, sched, st0, st1. by split_and!.
    + destruct (IH st1 Hr Hpre Hnot1) as (s1 & a' & s2 & st1' & st2 & -> & H1 & H2 & H3 & H4 & H5).
      exists (a :: s1), a', s2, st1', st2. simpl. rewrite Hs. by split_and!.
Qed.

(** The only step that logs a read of IsDone is that read, and it logs
    what the counter then was. *)
Lemma step_logs_poll a st st' b :
  step a st = Some st' → trace st' = trace st ++ [EvIsDone b] →
  b = IsDone (tm st).
Proof.
  intros Hstep Htr. unfold step, when_idle in Hstep.
  destruct (crashed st); [done|].
  assert (Hno : ∀ e, e ≠ EvIsDone b → trace st ++ [e] = trace st ++ [EvIsDone b] → False).
  { intros e Hne [_ ?]%app_inj_tail. done. }
  assert (Hsame : trace st = trace st ++ [EvIsDone b] → False).
  { intros E. apply (f_equal length) in E. rewrite length_app in E. simpl in E. lia. }
  assert (Hpoll : ∀ b', trace st ++ [EvIsDone b'] = trace st ++ [EvIsDone b] → b = b').
  { by intros b' [_ [= <-]]%app_inj_tail. }
  destruct a as [c|c|c x|c|c|c|w];
    repeat match goal with
    | H : context [match ?x with _ => _ end] |- _ =>
        destruct x eqn:?; simplify_eq
    end;
    cbn in Htr;
    first [ by apply Hsame in Htr
          | by apply Hpoll in Htr
          | by apply Hno in Htr ].
Qed.

Lemma bounded_earlier st st' : same_setup st st' → bounded st' → bounded st.
Proof.
  intros (_ & _ & Hcap & Hcs & Hpool). unfold bounded. rewrite Hcap, Hcs. lia.
Qed.

(** A counter of 0 in a bounded state: nothing is in flight. *)
Lemma zero_counter_quiescent st :
  consistent st → bounded st → IsDone (tm st) = true → quiescent st.
Proof.
  intros Hcons Hb Hdone. unfold IsDone in Hdone. apply Z.eqb_eq in Hdone.
  pose proof (in_flight_bound st Hcons Hb) as Hrange.
  pose proof (in_flight_split st Hcons) as Hsplit.
  rewrite (c_counter st Hcons) in Hdone.
  assert (Hz : in_flight st = 0%Z).
  { destruct (decide (in_flight st = 0%Z)) as [|Hne]; [done|].
    exfalso. apply (wrap64_zero (in_flight st)); [lia|done]. }
  rewrite Hz in Hsplit. unfold quiescent.
  split_and!; match goal with |- ?l = [] => destruct l; [done | simpl in Hsplit; lia] end.
Qed.

(** X4: whenever a read of IsDone returned true, every item whose Feed
    had incremented the counter before that read had by then been
    received, handed to the callback, returned from it and decremented
    for, once each. *)
Theorem IsDone_true_means_processed (w : Z) (cb : T → S → S) (tm0 : ThreaderManager T S) n (w0 : S) st tr :
  NewThreadManager w cb = Ok tm0 →
  reachable_from (init tm0 n w0) st →
  bounded st →
  tr ++ [EvIsDone true] `prefix_of` trace st →
  invoked tr ≡ₚ fed tr ∧ returned tr ≡ₚ fed tr ∧ acked tr ≡ₚ fed tr ∧
  enqueued tr = dequeued tr.
Proof.
  intros Hnew [sched Hrun] Hb Hpre.
  assert (Hnot : ¬ tr ++ [EvIsDone true] `prefix_of` trace (init tm0 n w0)).
  { intros Hnil%prefix_nil_inv. by destruct tr. }
  destruct (run_event _ _ _ _ _ Hrun Hpre Hnot)
    as (s1 & a & s2 & st1 & st2 & -> & H1 & H2 & H3 & <- & Htr).
  assert (Hcons : consistent st1).
  { eapply run_consistent; [|done]. by eapply init_consistent. }
  assert (Hb1 : bounded st1).
  { eapply bounded_earlier; [|done].
    apply (run_same_setup (a :: s2)). simpl. by rewrite H2. }
  pose proof (step_logs_poll _ _ _ _ H2 Htr) as Hdone. symmetry in Hdone.
  pose proof (zero_counter_quiescent st1 Hcons Hb1 Hdone) as Hq.
  destruct (quiescent_settled st1 Hcons Hq) as (Hinv & Hret & _).
  destruct Hq as (Hs & Hbuf & Hg & Hc & Hf).
  destruct Hcons as [Hfed Hfifo Hdeq Hcall Hret' _ _].
  rewrite Hf, app_nil_r in Hret'. rewrite Hbuf, app_nil_r in Hfifo.
  split_and!; try done. by rewrite <- Hret', Hret.
Qed.

(** ** The callback's state *)

Lemma replay_snoc (cb : T → S → S) (w0 : S) xs x :
  replay cb w0 (xs ++ [x]) = cb x (replay cb w0 xs).
Proof. unfold replay. by rewrite foldl_app. Qed.

Lemma step_world a st st' (w0 : S) :
  step a st = Some st' →
  world st = replay (callback (tm st)) w0 (returned (trace st)) →
  world st' = replay (callback (tm st')) w0 (returned (trace st')).
Proof.
  intros Hstep Hw.
  destruct (step_same_setup _ _ _ Hstep) as (_ & -> & _).
  unfold step, when_idle in Hstep. destruct (crashed st); [done|].
  destruct a as [c|c|c x|c|c|c|w].
  - destruct (callers st !! c) as [[| |]|]; by simplify_eq.
  - destruct (callers st !! c) as [[|i|]|]; simplify_eq.
    destruct (i <? workers (tm st))%Z; by simplify_eq.
  - destruct (callers st !! c) as [[| |]|]; simplify_eq. views. done.
  - destruct (callers st !! c) as [[| |x]|]; simplify_eq.
    destruct (Feed_send (tm st) x) as [[tm'|m]|]; simplify_eq; [|done].
    views. done.
  - destruct (callers st !! c) as [[| |]|]; simplify_eq. views. done.
  - destruct (callers st !! c) as [[| |]|]; simplify_eq.
    destruct (Stop (tm st)); simplify_eq; [|done]. views. done.
  - destruct (pool st !! w) as [[|x|x|x|]|]; simplify_eq.
    + destruct (worker_recv (tm st)) as [[[x|] tm']|]; simplify_eq; [|done].
      views. done.
    + views. done.
    + views. rewrite Hw. symmetry. exact (replay_snoc _ _ _ _).
    + views. done.
Qed.

Lemma run_world sched st st' (w0 : S) :
  run sched st = Some st' →
  world st = replay (callback (tm st)) w0 (returned (trace st)) →
  world st' = replay (callback (tm st')) w0 (returned (trace st')).
Proof.
  revert st. induction sched as [|a sched IH]; intros st Hr Hw; simpl in Hr.
  - by simplify_eq.
  - destruct (step a st) as [st1|] eqn:Hs; [|done].
    eauto using step_world.
Qed.

(** ** Schedules seen from the caller *)

Lemma caller_actions_app (s1 s2 : list (action T)) :
  caller_actions (s1 ++ s2) = caller_actions s1 ++ caller_actions s2.
Proof.
  induction s1 as [|a s1 IH]; [done|]. destruct a; simpl; by rewrite ?IH.
Qed.

Lemma caller_actions_Forall (P : action T → Prop) (s : list (action T)) :
  (∀ w, P (ActWork w)) → Forall P (caller_actions s) → Forall P s.
Proof.
  intros Hw. induction s as [|a s IH]; [done|].
  destruct a; simpl; intros H;
    first [ apply Forall_cons_1 in H as [? ?]; constructor; auto
          | constructor; auto ].
Qed.

Lemma feeds_of_caller (s : list (action T)) :
  feeds_of (caller_actions s) = feeds_of s.
Proof.
  unfold feeds_of. induction s as [|a s IH]; [done|].
  destruct a; csimpl; by rewrite ?IH.
Qed.

Lemma step_feeds a st st' :
  step a st = Some st' → fed (trace st') = fed (trace st) ++ feeds_of [a].
Proof.
  intros Hstep. unfold step, when_idle in Hstep.
  destruct (crashed st); [done|]. unfold feeds_of.
  destruct a as [c|c|c x|c|c|c|w]; csimpl; rewrite ?app_nil_r;
    repeat match goal with
    | H : context [match ?x with _ => _ end] |- _ =>
        destruct x eqn:?; simplify_eq
    end; views; done.
Qed.

(** The items fed are those of the Feed calls of the schedule, in the
    order of the calls. *)
Lemma run_feeds sched st st' :
  run sched st = Some st' → fed (trace st') = fed (trace st) ++ feeds_of sched.
Proof.
  revert st. induction sched as [|a sched IH]; intros st Hr; simpl in Hr.
  - simplify_eq. by rewrite app_nil_r.
  - destruct (step a st) as [st1|] eqn:Hs; [|done].
    rewrite (IH _ Hr), (step_feeds _ _ _ Hs), <- app_assoc.
    unfold feeds_of. f_equal. by destruct a.
Qed.

Lemma step_open a st st' :
  step a st = Some st' → closed (channel (tm st)) = false →
  (∀ c, a ≠ ActStop c) → closed (channel (tm st')) = false.
Proof.
  intros Hstep Hopen Hns. unfold step, when_idle in Hstep.
  destruct (crashed st); [done|].
  destruct a as [c|c|c x|c|c|c|w]; try (by destruct (Hns c));
    unfold Feed_send, chan_send, worker_recv, chan_recv in Hstep;
    repeat match goal with
    | H : context [match ?x with _ => _ end] |- _ =>
        destruct x eqn:?; simplify_eq
    end; cbn; try done.
Qed.

Lemma run_open sched st st' :
  run sched st = Some st' → closed (channel (tm st)) = false →
  Forall (λ a, ∀ c, a ≠ ActStop c) sched → closed (channel (tm st')) = false.
Proof.
  revert st. induction sched as [|a sched IH]; intros st Hr Hopen Hns;
    simpl in Hr.
  - by simplify_eq.
  - destruct (step a st) as [st1|] eqn:Hs; [|done].
    apply Forall_cons_1 in Hns as [Ha Hns].
    eauto using step_open.
Qed.

(** The step that logs a read of IsDone is that read; it changes nothing
    else. *)
Lemma step_logs_poll_action a st st' b :
  step a st = Some st' → trace st' = trace st ++ [EvIsDone b] →
  ∃ c, a = ActIsDone c ∧ st' = log (EvIsDone b) st.
Proof.
  intros Hstep Htr. unfold step, when_idle in Hstep.
  destruct (crashed st); [done|].
  assert (Hno : ∀ e, e ≠ EvIsDone b → trace st ++ [e] = trace st ++ [EvIsDone b] → False).
  { intros e Hne [_ ?]%app_inj_tail. done. }
  assert (Hsame : trace st = trace st ++ [EvIsDone b] → False).
  { intros E. apply (f_equal length) in E. rewrite length_app in E. simpl in E. lia. }
  destruct a as [c|c|c x|c|c|c|w];
    repeat match goal with
    | H : context [match ?x with _ => _ end] |- _ =>
        destruct x eqn:?; simplify_eq
    end;
    cbn in Htr;
    first [ by apply Hsame in Htr
          | by apply Hno in Htr
          | idtac ].
  apply app_inj_tail in Htr as [_ [= <-]]. by exists c.
Qed.

(** Splitting a list at a read of IsDone, when the list is known to
    start with a part that has none. *)
Lemma split_after_prefix (P X Y Q : list (action T)) (c : nat) :
  Forall (λ a, ∀ c', a ≠ ActIsDone c') P →
  X ++ ActIsDone c :: Y = P ++ Q →
  ∃ Q1, X = P ++ Q1 ∧ Q = Q1 ++ ActIsDone c :: Y.
Proof.
  revert X. induction P as [|p P IH]; intros X HP E.
  - by exists X.
  - apply Forall_cons_1 in HP as [Hp HP].
    destruct X as [|x X]; simpl in E; simplify_eq.
    + by destruct (Hp c).
    + destruct (IH X HP ltac:(done)) as (Q1 & -> & ->). by exists Q1.
Qed.

Lemma split_polls (k : nat) (c c' d : nat) (Q1 Y : list (action T)) :
  replicate k (ActIsDone c) ++ [ActStop d] = Q1 ++ ActIsDone c' :: Y →
  ∃ j1 j2, c' = c ∧ Q1 = replicate j1 (ActIsDone c) ∧
           Y = replicate j2 (ActIsDone c) ++ [ActStop d].
Proof.
  revert Q1. induction k as [|k IH]; intros Q1 E; simpl in E.
  - destruct Q1 as [|q [|q' Q1]]; simplify_eq.
  - destruct Q1 as [|q Q1]; simpl in E; simplify_eq.
    + by exists 0, k.
    + destruct (IH Q1 ltac:(done)) as (j1 & j2 & -> & -> & ->).
      by exists (Datatypes.S j1), j2.
Qed.

(** ** At rest *)

Lemma quiescent_worker_blocked st w :
  quiescent st → closed (channel (tm st)) = false → crashed st = None →
  step (ActWork w) st = None.
Proof.
  intros (_ & Hbuf & Hg & Hc & Hf) Hopen Hlive. unfold step. rewrite Hlive.
  destruct (pool st !! w) as [[|x|x|x|]|] eqn:Hw; try done.
  - unfold worker_recv, chan_recv. by rewrite Hbuf, Hopen.
  - by destruct (omap_lookup_nonempty has_got _ _ _ x Hw eq_refl).
  - by destruct (omap_lookup_nonempty in_call _ _ _ x Hw eq_refl).
  - by destruct (omap_lookup_nonempty to_decr _ _ _ x Hw eq_refl).
Qed.

(** After Stop, at rest, the workers can only leave. *)
Lemma rest_after_stop s st st' :
  quiescent st → crashed st = None → closed (channel (tm st)) = true →
  run s st = Some st' → caller_actions s = [] →
  quiescent st' ∧ crashed st' = None ∧ closed (channel (tm st')) = true.
Proof.
  revert st. induction s as [|a s IH]; intros st Hq Hlive Hcl Hr Hca;
    simpl in Hr.
  - by simplify_eq.
  - destruct (step a st) as [st1|] eqn:Hs; [|done].
    destruct a as [c|c|c x|c|c|c|w]; try done. simpl in Hca.
    apply (IH st1); try done;
      destruct Hq as (Hsend & Hbuf & Hg & Hc & Hf);
      unfold step in Hs; rewrite Hlive in Hs;
      destruct (pool st !! w) as [[|x|x|x|]|] eqn:Hw; try done;
      try (by destruct (omap_lookup_nonempty has_got _ _ _ x Hw eq_refl));
      try (by destruct (omap_lookup_nonempty in_call _ _ _ x Hw eq_refl));
      try (by destruct (omap_lookup_nonempty to_decr _ _ _ x Hw eq_refl));
      unfold worker_recv, chan_recv in Hs; rewrite Hbuf, Hcl in Hs;
      simplify_eq; try done.
    unfold quiescent, got, calling, finishing in *. cbn.
    pose proof (omap_insert_length has_got _ _ _ WExit Hw) as H1.
    pose proof (omap_insert_length in_call _ _ _ WExit Hw) as H2.
    pose proof (omap_insert_length to_decr _ _ _ WExit Hw) as H3.
    rewrite Hg in H1. rewrite Hc in H2. rewrite Hf in H3. simpl in *.
    split_and!; try done;
      match goal with |- ?l = [] => destruct l; [done | simpl in *; lia] end.
Qed.

(** At rest with the channel open, a caller that only reads IsDone and
    then stops leaves the pool at rest, stopped and alive. *)
Lemma rest_poll_stop s st st' (c j : nat) :
  quiescent st → crashed st = None → closed (channel (tm st)) = false →
  run s st = Some st' →
  caller_actions s = replicate j (ActIsDone c) ++ [ActStop c] →
  quiescent st' ∧ crashed st' = None ∧ closed (channel (tm st')) = true.
Proof.
  revert st j. induction s as [|a s IH]; intros st j Hq Hlive Hopen Hr Hca;
    simpl in Hr.
  - by destruct j.
  - destruct (step a st) as [st1|] eqn:Hs; [|done].
    destruct a as [c0|c0|c0 x|c0|c0|c0|w];
      try (destruct j; simpl in Hca; by simplify_eq).
    + (* a read of IsDone *)
      destruct j as [|j]; simpl in Hca; simplify_eq.
      apply (IH st1 j); try done;
        unfold step, when_idle in Hs; rewrite Hlive in Hs;
        destruct (callers st !! c) as [[| |]|]; by simplify_eq.
    + (* Stop *)
      destruct j as [|j]; simpl in Hca; simplify_eq.
      apply (rest_after_stop s st1); try done;
        unfold step, when_idle in Hs; rewrite Hlive in Hs;
        destruct (callers st !! c) as [[| |]|]; simplify_eq;
        unfold Stop, chan_close in Hs; rewrite Hopen in Hs;
        cbn [obind] in Hs; by simplify_eq.
    + by rewrite quiescent_worker_blocked in Hs.
Qed.

Lemma feed_poll_stop_feeds (c : nat) (tm0 : ThreaderManager T S) (items : list T) (k : nat) :
  feeds_of (feed_poll_stop c tm0 items k) = items.
Proof.
  unfold feed_poll_stop, Start, feeds_of. csimpl. rewrite !omap_app.
  assert (E1 : ∀ n, omap (λ a : action T, match a with ActFeed _ x => Some x | _ => None end)
                         (replicate n (ActLoop c)) = []).
  { induction n; [done|]. by csimpl. }
  assert (E2 : ∀ n, omap (λ a : action T, match a with ActFeed _ x => Some x | _ => None end)
                         (replicate n (ActIsDone c)) = []).
  { induction n; [done|]. by csimpl. }
  rewrite E1, E2. csimpl. rewrite app_nil_r.
  induction items as [|x items IH]; [done|]. csimpl. by rewrite IH.
Qed.

Lemma feed_part_shape (c : nat) (tm0 : ThreaderManager T S) (items : list T) :
  Forall (λ a, (∀ c', a ≠ ActIsDone c') ∧ (∀ c', a ≠ ActStop c'))
         (Start c tm0 ++ concat (Feed c <$> items)).
Proof.
  apply Forall_app. split.
  - unfold Start. constructor; [done|]. by apply Forall_replicate.
  - apply Forall_concat, Forall_fmap, Forall_true. intros x.
    unfold Feed. by repeat constructor.
Qed.

(** X8: the way the README, the test and main use the pool is sound.
    Take any interleaving of the workers with a caller that starts the
    pool, feeds the items, reads IsDone some number of times and then
    stops.  If one of the reads returned true, then at the end the
    process is alive, the channel is closed, nothing is in flight, the
    counter is 0, and the callback has run exactly once for every item
    fed, its state being what those calls made of it. *)
Theorem feed_poll_stop_completes (w : Z) (cb : T → S → S) (tm0 : ThreaderManager T S)
    n (w0 : S) (c : nat) (items : list T) (k : nat) sched st :
  NewThreadManager w cb = Ok tm0 →
  run sched (init tm0 n w0) = Some st →
  caller_actions sched = feed_poll_stop c tm0 items k →
  true ∈ polls (trace st) →
  bounded st →
  crashed st = None ∧ closed (channel (tm st)) = true ∧
  quiescent st ∧ counter (tm st) = 0%Z ∧
  fed (trace st) = items ∧
  invoked (trace st) ≡ₚ items ∧ returned (trace st) ≡ₚ items ∧
  world st = replay cb w0 (returned (trace st)).
Proof.
  intros Hnew Hrun Hprog Hpoll Hb.
  (* the read that returned true, and the step that made it *)
  apply list_elem_of_omap in Hpoll as (e & He & Heb).
  destruct e; simplify_eq.
  apply list_elem_of_split in He as (t1 & t2 & Ht).
  assert (Hpre : t1 ++ [EvIsDone true] `prefix_of` trace st).
  { exists t2. by rewrite Ht, <- app_assoc. }
  assert (Hnot : ¬ t1 ++ [EvIsDone true] `prefix_of` trace (init tm0 n w0)).
  { intros Hnil%prefix_nil_inv. by destruct t1. }
  destruct (run_event _ _ _ _ _ Hrun Hpre Hnot)
    as (s1 & a & s2 & st1 & st2 & -> & H1 & H2 & H3 & <- & Htr).
  destruct (step_logs_poll_action _ _ _ _ H2 Htr) as (c' & -> & ->).
  pose proof (step_logs_poll _ _ _ _ H2 Htr) as Hdone. symmetry in Hdone.
  assert (Hcons1 : consistent st1).
  { eapply run_consistent; [|done]. by eapply init_consistent. }
  assert (Hb1 : bounded st1).
  { eapply bounded_earlier; [|done].
    apply (run_same_setup (ActIsDone c' :: s2)). simpl. by rewrite H2. }
  pose proof (zero_counter_quiescent st1 Hcons1 Hb1 Hdone) as Hq1.
  (* the caller's side of the schedule before and after that read *)
  rewrite caller_actions_app in Hprog. simpl in Hprog.
  unfold feed_poll_stop in Hprog. rewrite app_assoc in Hprog.
  pose proof (feed_part_shape c tm0 items) as Hshape.
  destruct (split_after_prefix _ _ _ _ _
              (Forall_impl _ _ _ Hshape (λ _ H, proj1 H)) Hprog)
    as (Q1 & HX & HQ).
  destruct (split_polls _ _ _ _ _ _ HQ) as (j1 & j2 & -> & -> & HY).
  (* no Stop so far: the channel is open *)
  assert (Hopen1 : closed (channel (tm st1)) = false).
  { eapply run_open; [done| |].
    - by apply fresh_pool in Hnew as [_ ->].
    - apply caller_actions_Forall; [done|]. rewrite HX.
      apply Forall_app. split.
      + by apply (Forall_impl _ _ _ Hshape (λ _ H, proj2 H)).
      + by apply Forall_replicate. }
  assert (Hlive1 : crashed st1 = None).
  { unfold step in H2. by destruct (crashed st1). }
  (* the rest of the run *)
  destruct (rest_poll_stop s2 (log (EvIsDone true) st1) st c j2)
    as (Hq & Hlive & Hcl); try done.
  assert (Hcons : consistent st).
  { eapply run_consistent; [|exact Hrun]. by eapply init_consistent. }
  destruct (quiescent_settled st Hcons Hq) as (Hinv & Hret & Hzero).
  pose proof (run_feeds _ _ _ Hrun) as Hfed. cbn in Hfed.
  rewrite <- feeds_of_caller, caller_actions_app in Hfed. simpl in Hfed.
  rewrite HX, HY in Hfed.
  assert (Hitems : fed (trace st) = items).
  { rewrite Hfed. rewrite <- (feed_poll_stop_feeds c tm0 items k) at 2.
    unfold feed_poll_stop. rewrite app_assoc. f_equal. rewrite HQ, HY.
    by rewrite <- !app_assoc. }
  split_and!; try done.
  - by rewrite <- Hitems.
  - by rewrite <- Hitems.
  - pose proof (run_world _ _ _ w0 Hrun eq_refl) as Hworld.
    destruct (run_same_setup _ _ _ Hrun) as (_ & Hcb & _).
    apply fresh_pool in Hnew as [_ ->]. by rewrite Hworld, Hcb.
Qed.

(** ** A started pool gets everything done *)

Lemma init_budget (W : Z) (tm0 : ThreaderManager T S) n (w0 : S) :
  budget W 0 (init tm0 n w0).
Proof.
  split; cbn [init pool callers].
  - rewrite spawning_none; [simpl; lia|]. by apply Forall_replicate.
  - by apply Forall_replicate.
Qed.

(** If workers are still to be launched, some caller is inside the loop
    of Start with its loop variable below the worker count. *)
Lemma spawning_pos (W : Z) (cs : list (caller T)) :
  Forall (loop_in_range W) cs → (0 < spawning W cs)%Z →
  ∃ c i, cs !! c = Some (CStart i) ∧ (i < W)%Z.
Proof.
  induction 1 as [|c0 cs Hc0 _ IH]; simpl; [lia|]. intros Hpos.
  destruct c0 as [|i|x]; simpl in *.
  - destruct IH as (c & i & Hc & Hi); [lia|]. by exists (Datatypes.S c), i.
  - destruct (decide (i < W)%Z) as [Hlt|Hge].
    + by exists 0, i.
    + destruct IH as (c & i' & Hc & Hi); [lia|]. by exists (Datatypes.S c), i'.
  - destruct IH as (c & i & Hc & Hi); [lia|]. by exists (Datatypes.S c), i.
Qed.

(** Once Start has been called on a pool with at least one worker, a
    live pool with an open channel can be run on, by the loop of Start,
    the pending sends and the workers, to a state with nothing in
    flight. *)
Lemma started_drains (W : Z) (k : nat) st :
  (1 ≤ W)%Z → 0 < k → budget W k st →
  workers (tm st) = W → cap (channel (tm st)) = W → shaped st →
  crashed st = None → closed (channel (tm st)) = false →
  ∃ rest st', run rest st = Some st' ∧ crashed st' = None ∧
              quiescent st' ∧ fed (trace st') = fed (trace st).
Proof.
  intros HW Hk [Hsum Hrange] Hws Hcap (_ & _ & _ & Hrun) Hlive Hopen.
  destruct (pool st) as [|s ws] eqn:Hp.
  - (* no worker yet: a Start is under way and launches one *)
    simpl in Hsum.
    destruct (spawning_pos W (callers st) Hrange) as (c & i & Hc & Hi); [nia|].
    assert (Hstep : step (ActLoop c) st
                    = Some (set_caller c (CStart (i + 1)) (spawn st))).
    { unfold step. rewrite Hlive, Hc, Hws.
      by destruct (i <? W)%Z eqn:Hlt; [|apply Z.ltb_ge in Hlt; lia]. }
    destruct (drain (set_caller c (CStart (i + 1)) (spawn st)))
      as (rest & st' & Hr & (Hlive' & _) & Hq & Hfed).
    { unfold drainable. cbn. rewrite Hp. split_and!; try done; [lia|].
      by repeat constructor. }
    exists (ActLoop c :: rest), st'. simpl. rewrite Hstep.
    split_and!; try done.
  - destruct (drain st) as (rest & st' & Hr & (Hlive' & _) & Hq & Hfed).
    { unfold drainable. rewrite Hp. split_and!; try done; [lia|].
      by apply Hrun. }
    by exists rest, st'.
Qed.

End Invariant.

Example test_busy_trace :
  trace test_busy =
    [EvFeed "Foo"; EvEnq "Foo"; EvFeed "Baar"; EvEnq "Baar";
     EvDeq "Foo"; EvDeq "Baar"; EvCall "Baar"; EvCall "Foo";
     EvFeed "Baloo"; EvEnq "Baloo"; EvFeed "Golang"; EvEnq "Golang"].
Proof. reflexivity. Qed.

Example test_done_world :
  world test_done =
    ["Handled Baar"; "Handled Baloo"; "Handled Golang"; "Handled Foo"].
Proof. reflexivity. Qed.

Example test_done_IsDone :
  omap (λ e, match e with EvIsDone b => Some b | _ => None end) (trace test_done)
  = [false; false; true].
Proof. reflexivity. Qed.

Example test_done_counter : counter (tm test_done) = 0%Z ∧ pool test_done = [WRecv; WRecv].
Proof. split; reflexivity. Qed.

Example test_stopped_closed :
  closed (channel (tm test_stopped)) = true ∧ crashed test_stopped = None.
Proof. split; reflexivity. Qed.

Section PoolClaims.
Context {T S : Type}.
Implicit Types (st : state T S).

(** C1: IsDone returns true exactly when the counter it reads is 0.  It
    is a single atomic load: for a caller outside the pool's methods in a
    live process it is always enabled, and it changes nothing of the
    pool, of the goroutines or of the callback's state (the history only
    records the value it returned). *)
Theorem IsDone_reads_counter st (c : nat) :
  (IsDone (tm st) = true ↔ counter (tm st) = 0%Z) ∧
  (crashed st = None → callers st !! c = Some CIdle →
   ∃ st', step (ActIsDone c) st = Some st' ∧
     tm st' = tm st ∧ callers st' = callers st ∧ pool st' = pool st ∧
     world st' = world st ∧ crashed st' = None ∧
     trace st' = trace st ++ [EvIsDone (IsDone (tm st))]).
Proof.
  split.
  - unfold IsDone. apply Z.eqb_eq.
  - intros Hlive Hc. eexists. split.
    + unfold step, when_idle. rewrite Hlive, Hc. reflexivity.
    + by repeat split.
Qed.

(** C2: under any schedule, in any state a pool has reached in which
    nothing is in flight any more, the callback has been invoked for and
    has returned from each fed item once, as multisets, its state is the
    result of one application per fed item, and the counter is back at
    exactly 0.  And nothing is dropped on the way there: once Start has
    been called on a pool with at least one worker, from any state of
    the live pool with the channel open, the goroutines already there
    can run on, without a further Feed, to such a state, with the same
    items fed. *)
Theorem each_item_processed_once (w : Z) (cb : T → S → S) (tm0 : ThreaderManager T S)
    n (w0 : S) sched st :
  NewThreadManager w cb = Ok tm0 →
  run sched (init tm0 n w0) = Some st →
  (quiescent st → processed cb w0 (fed (trace st)) st) ∧
  ((1 ≤ w)%Z → 0 < starts_of sched →
   crashed st = None → closed (channel (tm st)) = false →
   ∃ rest st',
     run rest st = Some st' ∧ feeds_of rest = [] ∧ crashed st' = None ∧
     quiescent st' ∧ fed (trace st') = fed (trace st) ∧
     processed cb w0 (fed (trace st)) st').
Proof.
  intros Hnew Hrun.
  assert (Hdone : ∀ sched' st', run sched' (init tm0 n w0) = Some st' →
            quiescent st' → processed cb w0 (fed (trace st')) st').
  { intros sched' st' Hrun' Hq.
    assert (Hcons : consistent st').
    { eapply run_consistent; [|exact Hrun']. by eapply init_consistent. }
    destruct (quiescent_settled st' Hcons Hq) as (Hinv & Hret & Hzero).
    unfold processed. split_and!; try done.
    - unfold IsDone. by rewrite Hzero.
    - exists (returned (trace st')). split; [done|].
      pose proof (run_world _ _ _ w0 Hrun' eq_refl) as Hworld.
      destruct (run_same_setup _ _ _ Hrun') as (_ & Hcb & _).
      apply fresh_pool in Hnew as [_ ->]. by rewrite Hworld, Hcb. }
  split; [by apply (Hdone sched)|].
  intros Hw Hstarted Hlive Hopen.
  destruct (run_same_setup _ _ _ Hrun) as (Hws & _ & Hcap & _).
  assert (Hset : workers tm0 = w ∧ cap (channel tm0) = w).
  { by apply fresh_pool in Hnew as [_ ->]. }
  destruct Hset as [Hws0 Hcap0]. cbn in Hws, Hcap.
  assert (Hb : budget w (0 + starts_of sched) st).
  { eapply run_budget; [lia| |apply init_budget|exact Hrun]. exact Hws0. }
  assert (Hsh : shaped st).
  { eapply run_shaped; [|exact Hrun]. by eapply init_shaped. }
  destruct (started_drains w (0 + starts_of sched) st)
    as (rest & st' & Hr & Hlive' & Hq & Hfed); try done; try congruence.
  assert (Hrun' : run (sched ++ rest) (init tm0 n w0) = Some st').
  { clear -Hrun Hr. revert Hrun. generalize (init tm0 n w0).
    induction sched as [|a sched IH]; intros st0 Hrun; simpl in *.
    - by simplify_eq.
    - destruct (step a st0); [by apply IH|done]. }
  exists rest, st'. split_and!; try done.
  - pose proof (run_feeds _ _ _ Hr) as Hf. rewrite Hfed in Hf.
    rewrite <- (app_nil_r (fed (trace st))) in Hf at 1.
    by apply app_inv_head in Hf.
  - rewrite <- Hfed. by apply (Hdone (sched ++ rest)).
Qed.

(** C3: along the whole history of a run, every enqueue comes after the
    increment of its own Feed and every decrement after the return of its
    own callback.  So in a reachable state in which some fed item's
    callback has not returned, the counter is not 0 and IsDone is false
    (the goroutines and the buffer together being fewer than the 2^64
    values of the counter). *)
Theorem not_done_while_unfinished (w : Z) (cb : T → S → S) (tm0 : ThreaderManager T S) n (w0 : S) st :
  NewThreadManager w cb = Ok tm0 →
  reachable_from (init tm0 n w0) st →
  bounded st →
  (∀ tr, tr `prefix_of` trace st → ordered tr) ∧
  counter (tm st) = wrap64 (in_flight st) ∧
  (length (returned (trace st)) < length (fed (trace st)) →
   IsDone (tm st) = false).
Proof.
  intros Hnew Hreach Hb.
  pose proof (reachable_consistent _ _ _ _ _ _ Hnew Hreach) as Hcons.
  pose proof (in_flight_bound st Hcons Hb) as Hrange.
  split; [|split].
  - destruct Hreach as [sched Hrun].
    eapply run_history; [by eapply init_consistent| |done].
    intros tr ->%prefix_nil_inv. split; done.
  - by destruct Hcons.
  - destruct Hcons as [Hfed Hfifo Hdeq Hcall Hret Hcnt _].
    intros Hlt. unfold IsDone. apply Z.eqb_neq. rewrite Hcnt.
    apply wrap64_zero.
    apply Permutation_length in Hret. rewrite length_app in Hret.
    unfold in_flight in *. lia.
Qed.

(** C6: the items received by workers, in the order received, are an
    initial segment of the items enqueued, in the order enqueued; the
    rest is the buffer.  So when A entered the channel before B and B has
    been received, A was received, and earlier. *)
Theorem dequeue_order_is_feed_order (w : Z) (cb : T → S → S) (tm0 : ThreaderManager T S) n (w0 : S) st :
  NewThreadManager w cb = Ok tm0 →
  reachable_from (init tm0 n w0) st →
  enqueued (trace st) = dequeued (trace st) ++ buf (channel (tm st)) ∧
  ∀ (i j : nat) (A B : T),
    i < j →
    enqueued (trace st) !! i = Some A →
    enqueued (trace st) !! j = Some B →
    j < length (dequeued (trace st)) →
    dequeued (trace st) !! i = Some A ∧ dequeued (trace st) !! j = Some B.
Proof.
  intros Hnew Hreach.
  pose proof (reachable_consistent _ _ _ _ _ _ Hnew Hreach) as Hcons.
  destruct Hcons as [_ Hfifo _ _ _ _ _].
  split; [done|].
  intros i j A B Hij HA HB Hj. rewrite Hfifo in HA, HB.
  rewrite lookup_app_l in HA by lia.
  rewrite lookup_app_l in HB by lia. done.
Qed.

(** C7: Stop on an open channel sets the closed flag and nothing else:
    counter, worker count, callback, buffered items, goroutines and the
    callback's state are as before.  It is enabled whatever the counter
    and the workers are doing, and the caller is back outside the pool's
    methods after this one step. *)
Theorem Stop_only_closes st (c : nat) :
  crashed st = None →
  callers st !! c = Some CIdle →
  closed (channel (tm st)) = false →
  ∃ st', step (ActStop c) st = Some st' ∧
    Stop (tm st) = Ok (tm st') ∧
    closed (channel (tm st')) = true ∧
    buf (channel (tm st')) = buf (channel (tm st)) ∧
    cap (channel (tm st')) = cap (channel (tm st)) ∧
    counter (tm st') = counter (tm st) ∧
    workers (tm st') = workers (tm st) ∧
    callback (tm st') = callback (tm st) ∧
    callers st' = callers st ∧ pool st' = pool st ∧
    world st' = world st ∧ crashed st' = None.
Proof.
  intros Hlive Hc Hopen. eexists. split.
  - unfold step, when_idle, Stop, chan_close.
    rewrite Hlive, Hc, Hopen. cbn [obind]. reflexivity.
  - unfold Stop, chan_close. rewrite Hopen. cbn [obind].
    by repeat split.
Qed.

(** Once closed, the channel stays closed. *)
Lemma step_closed a st st' :
  step a st = Some st' →
  closed (channel (tm st)) = true → closed (channel (tm st')) = true.
Proof.
  intros Hstep Hcl. unfold step, when_idle in Hstep.
  destruct (crashed st); [done|].
  destruct a as [c|c|c x|c|c|c|w].
  - destruct (callers st !! c) as [[| |]|]; by simplify_eq.
  - destruct (callers st !! c) as [[|i|]|]; simplify_eq.
    destruct (i <? workers (tm st))%Z; by simplify_eq.
  - destruct (callers st !! c) as [[| |]|]; by simplify_eq.
  - destruct (callers st !! c) as [[| |x]|]; simplify_eq.
    unfold Feed_send, chan_send in Hstep. rewrite Hcl in Hstep. by simplify_eq.
  - destruct (callers st !! c) as [[| |]|]; by simplify_eq.
  - destruct (callers st !! c) as [[| |]|]; simplify_eq.
    unfold Stop, chan_close in Hstep. rewrite Hcl in Hstep.
    cbn [obind] in Hstep. by simplify_eq.
  - destruct (pool st !! w) as [[|x|x|x|]|]; simplify_eq; try done.
    unfold worker_recv, chan_recv in Hstep.
    destruct (buf (channel (tm st))); rewrite ?Hcl in Hstep; by simplify_eq.
Qed.

Lemma run_closed sched st st' :
  run sched st = Some st' →
  closed (channel (tm st)) = true → closed (channel (tm st')) = true.
Proof.
  revert st. induction sched as [|a sched IH]; intros st Hr Hcl; simpl in Hr.
  - by simplify_eq.
  - destruct (step a st) as [st1|] eqn:Hs; [|done].
    eauto using step_closed.
Qed.

(** C5, as the code has it: Stop may be called once.  After a Stop that
    went through, every later Stop, whatever ran in between, panics with
    "close of closed channel"; the process is dead and no goroutine takes
    another step. *)
Theorem second_Stop_panics st st1 sched st2 (c c' : nat) :
  step (ActStop c) st = Some st1 → crashed st1 = None →
  run sched st1 = Some st2 → crashed st2 = None →
  callers st2 !! c' = Some CIdle →
  Stop (tm st2) = Panic "close of closed channel" ∧
  ∃ st3, step (ActStop c') st2 = Some st3 ∧
         crashed st3 = Some "close of closed channel" ∧
         ∀ a, step a st3 = None.
Proof.
  intros Hfirst Hlive1 Hrun Hlive2 Hc'.
  assert (Hcl1 : closed (channel (tm st1)) = true).
  { unfold step, when_idle in Hfirst. destruct (crashed st); [done|].
    destruct (callers st !! c) as [[| |]|]; simplify_eq.
    unfold Stop, chan_close in Hfirst.
    destruct (closed (channel (tm st))); cbn [obind] in Hfirst; by simplify_eq. }
  pose proof (run_closed _ _ _ Hrun Hcl1) as Hcl2.
  assert (HS : Stop (tm st2) = Panic "close of closed channel").
  { unfold Stop, chan_close. by rewrite Hcl2. }
  split; [done|]. eexists. split; [|split].
  - unfold step, when_idle. rewrite Hlive2, Hc', HS. reflexivity.
  - done.
  - intros a. reflexivity.
Qed.

Lemma step_starved a st st' : step a st = Some st' → starved st → starved st'.
Proof.
  intros Hstep (Hw & Hcap & Hbuf & Hpool & Henq & Hinv & Hloop).
  unfold step, when_idle in Hstep. destruct (crashed st); [done|].
  unfold starved, enqueued, invoked in *.
  destruct a as [c|c|c x|c|c|c|w].
  - destruct (callers st !! c) as [[| |]|]; simplify_eq.
    repeat split; try done. by apply Forall_insert.
  - destruct (callers st !! c) as [[|i|]|] eqn:Hc; simplify_eq.
    rewrite Hw in Hstep.
    pose proof (Forall_lookup_1 _ _ _ _ Hloop Hc) as Hi. simpl in Hi.
    destruct (i <? 0)%Z eqn:Hlt; [apply Z.ltb_lt in Hlt; lia|].
    simplify_eq. repeat split; try done. by apply Forall_insert.
  - destruct (callers st !! c) as [[| |]|]; simplify_eq.
    cbn. rewrite !omap_snoc, !app_nil_r.
    repeat split; try done. by apply Forall_insert.
  - destruct (callers st !! c) as [[| |x]|]; simplify_eq.
    unfold Feed_send, chan_send in Hstep. rewrite Hbuf, Hcap in Hstep.
    destruct (closed (channel (tm st))); by simplify_eq.
  - destruct (callers st !! c) as [[| |]|]; simplify_eq.
    cbn. rewrite !omap_snoc, !app_nil_r. done.
  - destruct (callers st !! c) as [[| |]|]; simplify_eq.
    unfold Stop, chan_close in Hstep.
    destruct (closed (channel (tm st))); cbn [obind] in Hstep; simplify_eq;
      [done|].
    cbn. rewrite !omap_snoc, !app_nil_r. done.
  - rewrite Hpool in Hstep. done.
Qed.

Lemma run_starved sched st st' :
  run sched st = Some st' → starved st → starved st'.
Proof.
  revert st. induction sched as [|a sched IH]; intros st Hr Hs; simpl in Hr.
  - by simplify_eq.
  - destruct (step a st) as [st1|] eqn:Hs1; [|done].
    eauto using step_starved.
Qed.

(** C4, as the code has it: the constructor validates nothing itself.  A
    negative count makes the channel allocation panic, so no pool is
    returned.  A count of zero is accepted: the pool has an unbuffered
    queue, Start launches no worker, and in every state it reaches no
    item was ever enqueued or processed and every send of a Feed under
    way is blocked while the channel is open. *)
Theorem NewThreadManager_nonpositive (w : Z) (cb : T → S → S) :
  (w ≤ 0)%Z →
  match NewThreadManager w cb with
  | Panic m => (w < 0)%Z ∧ m = "makechan: size out of range"
  | Ok tm0 =>
      w = 0%Z ∧ tm0 = MkTM (Chan [] 0 false) 0 cb 0 ∧
      ∀ n (w0 : S) st,
        reachable_from (init tm0 n w0) st →
        pool st = [] ∧ enqueued (trace st) = [] ∧ invoked (trace st) = [] ∧
        ∀ c, closed (channel (tm st)) = false → step (ActSend c) st = None
  end.
Proof.
  intros Hw. unfold NewThreadManager, make_chan.
  destruct (w <? 0)%Z eqn:Hlt; cbn [obind].
  - apply Z.ltb_lt in Hlt. done.
  - apply Z.ltb_ge in Hlt. assert (w = 0%Z) as -> by lia.
    split; [done|]. split; [done|].
    intros n w0 st [sched Hrun].
    assert (Hs : starved st).
    { eapply run_starved; [done|].
      repeat split. cbn. apply Forall_replicate. done. }
    destruct Hs as (_ & Hcap & Hbuf & Hpool & Henq & Hinv & _).
    repeat split; try done.
    intros c Hopen. unfold step.
    destruct (crashed st); [done|].
    destruct (callers st !! c) as [[| |x]|]; try done.
    unfold Feed_send, chan_send. by rewrite Hopen, Hbuf, Hcap.
Qed.

End PoolClaims.

Section AfterStop.
Context {T S : Type}.
Implicit Types (st : state T S).

Lemma Stop_step_closes st st' (c : nat) :
  step (ActStop c) st = Some st' → crashed st' = None →
  closed (channel (tm st')) = true.
Proof.
  intros Hstep Hlive. unfold step, when_idle in Hstep.
  destruct (crashed st); [done|].
  destruct (callers st !! c) as [[| |]|]; simplify_eq.
  unfold Stop, chan_close in Hstep.
  destruct (closed (channel (tm st))); cbn [obind] in Hstep; by simplify_eq.
Qed.

(** X9: after a Stop that went through, whatever ran in between, a Feed
    panics with "send on closed channel" and the process is dead: a new
    Feed after having incremented the counter, and equally a Feed that
    was waiting at its send when Stop came.  The item is not enqueued. *)
Theorem Feed_after_Stop_panics st st1 sched st2 (c c' : nat) (x : T) :
  step (ActStop c) st = Some st1 → crashed st1 = None →
  run sched st1 = Some st2 → crashed st2 = None →
  (callers st2 !! c' = Some CIdle →
   ∃ st3, run (Feed c' x) st2 = Some st3 ∧
     crashed st3 = Some "send on closed channel" ∧
     counter (tm st3) = add_int64 (counter (tm st2)) 1 ∧
     buf (channel (tm st3)) = buf (channel (tm st2)) ∧
     enqueued (trace st3) = enqueued (trace st2) ∧
     ∀ a, step a st3 = None) ∧
  (callers st2 !! c' = Some (CFeed x) →
   step (ActSend c') st2 = Some (crash "send on closed channel" st2)).
Proof.
  intros Hstop Hlive1 Hrun Hlive2.
  pose proof (Stop_step_closes _ _ _ Hstop Hlive1) as Hcl1.
  pose proof (run_closed _ _ _ Hrun Hcl1) as Hcl2.
  split.
  - intros Hc. pose proof (lookup_lt_Some _ _ _ Hc) as Hlen.
    eexists. unfold Feed. cbn [run]. unfold step at 1, when_idle.
    rewrite Hlive2, Hc. unfold step. cbn.
    rewrite Hlive2, list_lookup_insert_eq by done.
    unfold Feed_send, chan_send. cbn. rewrite Hcl2.
    split; [reflexivity|]. cbn. split_and!; try done.
    unfold enqueued. by rewrite omap_app, app_nil_r.
  - intros Hc. unfold step. rewrite Hlive2, Hc.
    unfold Feed_send, chan_send. by rewrite Hcl2.
Qed.

End AfterStop.

(** ** The claims on the scenario of the test *)

Lemma IsDone_reads_counter_witness :
  crashed test_done = None ∧ callers test_done !! 0 = Some CIdle ∧
  ∃ st', step (ActIsDone 0) test_done = Some st' ∧
    tm st' = tm test_done ∧ callers st' = callers test_done ∧
    pool st' = pool test_done ∧ world st' = world test_done ∧
    crashed st' = None ∧
    trace st' = trace test_done ++ [EvIsDone (IsDone (tm test_done))].
Proof.
  split; [reflexivity|]. split; [reflexivity|].
  apply (proj2 (IsDone_reads_counter test_done 0)); reflexivity.
Defined.

Lemma each_item_processed_once_witness :
  (quiescent test_done ∧ processed handled [] test_items test_done) ∧
  (0 < starts_of test_fed ∧
   ∃ rest st',
     run rest test_busy = Some st' ∧ feeds_of rest = [] ∧ crashed st' = None ∧
     quiescent st' ∧ fed (trace st') = test_items ∧
     processed handled [] test_items st').
Proof.
  split.
  - assert (Hq : quiescent test_done) by (repeat split).
    split; [exact Hq|].
    apply (each_item_processed_once 2 handled test_tm 1 []
             (test_fed ++ test_drain) test_done);
      [reflexivity | vm_compute; reflexivity | exact Hq].
  - split; [vm_compute; lia|].
    apply (each_item_processed_once 2 handled test_tm 1 [] test_fed test_busy);
      [reflexivity | vm_compute; reflexivity | lia | vm_compute; lia
      | reflexivity | reflexivity].
Defined.

Lemma not_done_while_unfinished_witness :
  bounded test_busy ∧
  (length (returned (trace test_busy)) < length (fed (trace test_busy))) ∧
  (∀ tr, tr `prefix_of` trace test_busy → ordered tr) ∧
  counter (tm test_busy) = wrap64 (in_flight test_busy) ∧
  IsDone (tm test_busy) = false.
Proof.
  assert (Hb : bounded test_busy) by (unfold bounded; vm_compute; reflexivity).
  assert (Hlt : length (returned (trace test_busy)) < length (fed (trace test_busy)))
    by (vm_compute; lia).
  split; [exact Hb|]. split; [exact Hlt|].
  destruct (not_done_while_unfinished 2 handled test_tm 1 [] test_busy)
    as (Hord & Hcnt & Hnot).
  - reflexivity.
  - exists test_fed. vm_compute. reflexivity.
  - exact Hb.
  - split; [exact Hord|]. split; [exact Hcnt|]. exact (Hnot Hlt).
Defined.

Lemma dequeue_order_is_feed_order_witness :
  enqueued (trace test_busy)
    = dequeued (trace test_busy) ++ buf (channel (tm test_busy)) ∧
  dequeued (trace test_busy) !! 0 = Some "Foo" ∧
  dequeued (trace test_busy) !! 1 = Some "Baar".
Proof.
  destruct (dequeue_order_is_feed_order 2 handled test_tm 1 [] test_busy)
    as [Hfifo Hord].
  - reflexivity.
  - exists test_fed. vm_compute. reflexivity.
  - split; [exact Hfifo|].
    apply (Hord 0 1 "Foo" "Baar"); [lia | reflexivity | reflexivity | simpl; lia].
Defined.

Lemma Stop_only_closes_witness :
  ∃ st', step (ActStop 0) test_busy = Some st' ∧
    Stop (tm test_busy) = Ok (tm st') ∧
    closed (channel (tm st')) = true ∧
    buf (channel (tm st')) = ["Baloo"; "Golang"] ∧
    counter (tm st') = 4%Z ∧
    pool st' = [WCall "Foo"; WCall "Baar"] ∧
    callers st' = [CIdle].
Proof.
  destruct (Stop_only_closes test_busy 0) as (st' & H1 & H2 & H3 & H4 & _ & H5 & _ & _ & H6 & H7 & _).
  - reflexivity.
  - reflexivity.
  - reflexivity.
  - exists st'. rewrite H4, H5, H6, H7. by repeat split.
Defined.

Lemma second_Stop_panics_witness :
  Stop (tm test_exited) = Panic "close of closed channel" ∧
  ∃ st3, step (ActStop 0) test_exited = Some st3 ∧
         crashed st3 = Some "close of closed channel" ∧
         ∀ a, step a st3 = None.
Proof.
  apply (second_Stop_panics test_done test_stopped [ActWork 0; ActWork 1]
           test_exited 0 0); vm_compute; reflexivity.
Defined.

(** C5 as stated fails on the test's own pool: the first Stop goes
    through, the second panics and the process is gone. *)
Lemma Stop_twice_crashes_test :
  ¬ second_Stop_tolerated test_tm ∧
  crashed test_stopped = None ∧
  crashed test_stopped_twice = Some "close of closed channel".
Proof.
  split; [|split; reflexivity].
  intros H. specialize (H _ eq_refl). discriminate H.
Qed.

Lemma NewThreadManager_nonpositive_witness :
  match @NewThreadManager string (list string) 0 handled with
  | Panic m => (0 < 0)%Z ∧ m = "makechan: size out of range"
  | Ok tm0 =>
      0%Z = 0%Z ∧ tm0 = MkTM (Chan [] 0 false) 0 handled 0 ∧
      ∀ n (w0 : list string) st,
        reachable_from (init tm0 n w0) st →
        pool st = [] ∧ enqueued (trace st) = [] ∧ invoked (trace st) = [] ∧
        ∀ c, closed (channel (tm st)) = false → step (ActSend c) st = None
  end.
Proof. apply (NewThreadManager_nonpositive 0 handled). lia. Defined.

(** C4 as stated fails at a worker count of zero: the constructor
    returns a pool with no worker and no buffer, and after Start the
    first Feed has incremented the counter and cannot send. *)
Lemma zero_workers_accepted :
  NewThreadManager 0 handled = Ok zero_tm ∧
  ¬ rejects_or_clamps (@NewThreadManager string (list string) 0 handled) ∧
  callers zero_fed = [CFeed "Foo"] ∧ pool zero_fed = [] ∧
  counter (tm zero_fed) = 1%Z ∧ crashed zero_fed = None ∧
  step (ActSend 0) zero_fed = None.
Proof.
  split; [reflexivity|]. split; [|by repeat split].
  simpl. lia.
Qed.

(** ** The further properties on the scenarios *)

Lemma setup_is_immutable_witness :
  workers (tm test_busy) = 2%Z ∧ callback (tm test_busy) = handled ∧
  cap (channel (tm test_busy)) = 2%Z ∧
  ∀ sched st', run sched test_busy = Some st' →
    workers (tm st') = 2%Z ∧ callback (tm st') = handled ∧
    cap (channel (tm st')) = 2%Z.
Proof.
  apply (setup_is_immutable 2 handled test_tm 1 [] test_busy).
  - reflexivity.
  - exists test_fed. vm_compute. reflexivity.
Defined.

Lemma queue_within_capacity_witness :
  (Z.of_nat (length (buf (channel (tm test_blocked)))) ≤ 2)%Z ∧
  (step (ActSend 0) test_blocked = None ↔
   Z.of_nat (length (buf (channel (tm test_blocked)))) = 2%Z).
Proof.
  destruct (queue_within_capacity 2 handled test_tm 1 [] test_blocked)
    as [Hle Hblock].
  - reflexivity.
  - exists (test_fed ++ [ActFeed 0 "More"]). vm_compute. reflexivity.
  - split; [exact Hle|]. apply (Hblock 0 "More"); reflexivity.
Defined.

Lemma counter_counts_in_flight_witness :
  small test_busy ∧ counter (tm test_busy) = 4%Z ∧ (0 ≤ counter (tm test_busy))%Z.
Proof.
  assert (Hs : small test_busy) by (unfold small; vm_compute; reflexivity).
  split; [exact Hs|].
  apply (counter_counts_in_flight 2 handled test_tm 1 [] test_busy).
  - reflexivity.
  - exists test_fed. vm_compute. reflexivity.
  - exact Hs.
Defined.

Lemma IsDone_true_means_processed_witness :
  test_before_poll ++ [EvIsDone true] `prefix_of` trace test_stopped ∧
  invoked test_before_poll ≡ₚ test_items ∧
  returned test_before_poll ≡ₚ test_items ∧
  acked test_before_poll ≡ₚ test_items ∧
  enqueued test_before_poll = dequeued test_before_poll.
Proof.
  assert (Hp : test_before_poll ++ [EvIsDone true] `prefix_of` trace test_stopped).
  { exists [EvStop]. vm_compute. reflexivity. }
  split; [exact Hp|].
  apply (IsDone_true_means_processed 2 handled test_tm 1 [] test_stopped
           test_before_poll).
  - reflexivity.
  - exists test_run. vm_compute. reflexivity.
  - unfold bounded. vm_compute. reflexivity.
  - exact Hp.
Defined.

Lemma single_worker_keeps_order_witness :
  length (pool solo_busy) ≤ 1 ∧
  enqueued (trace solo_busy) = ["A"] ++ [] ++ ["B"] ++ [] ++ ["C"] ∧
  invoked (trace solo_busy) `prefix_of` enqueued (trace solo_busy) ∧
  returned (trace solo_busy) `prefix_of` enqueued (trace solo_busy).
Proof.
  assert (Hone : length (pool solo_busy) ≤ 1) by (vm_compute; lia).
  split; [exact Hone|].
  apply (single_worker_keeps_order 1 handled solo_tm 1 [] solo_busy).
  - reflexivity.
  - exists solo_run. vm_compute. reflexivity.
  - exact Hone.
Defined.

Lemma Stop_loses_nothing_witness :
  buf (channel (tm test_stopped_busy)) = ["Baloo"; "Golang"] ∧
  ∃ sched st',
    run sched test_stopped_busy = Some st' ∧ crashed st' = None ∧
    Forall exited (pool st') ∧ buf (channel (tm st')) = [] ∧
    fed (trace st') = test_items ∧
    returned (trace st') ≡ₚ test_items ∧
    IsDone (tm st') = true.
Proof.
  split; [reflexivity|].
  apply (Stop_loses_nothing 2 handled test_tm 1 [] test_stopped_busy).
  - reflexivity.
  - exists (test_fed ++ [ActStop 0]). vm_compute. reflexivity.
  - reflexivity.
  - reflexivity.
  - reflexivity.
  - vm_compute. discriminate.
Defined.

Lemma feed_poll_stop_completes_witness :
  caller_actions test_run = feed_poll_stop 0 test_tm test_items 3 ∧
  crashed test_stopped = None ∧ closed (channel (tm test_stopped)) = true ∧
  quiescent test_stopped ∧ counter (tm test_stopped) = 0%Z ∧
  fed (trace test_stopped) = test_items ∧
  invoked (trace test_stopped) ≡ₚ test_items ∧
  returned (trace test_stopped) ≡ₚ test_items ∧
  world test_stopped = replay handled [] (returned (trace test_stopped)).
Proof.
  assert (Hp : caller_actions test_run = feed_poll_stop 0 test_tm test_items 3)
    by reflexivity.
  split; [exact Hp|].
  apply (feed_poll_stop_completes 2 handled test_tm 1 [] 0 test_items 3
           test_run test_stopped).
  - reflexivity.
  - vm_compute. reflexivity.
  - exact Hp.
  - assert (polls (trace test_stopped) = [false; false; true]) as ->
      by reflexivity.
    apply list_elem_of_In. simpl. tauto.
  - unfold bounded. vm_compute. reflexivity.
Defined.

Lemma Feed_after_Stop_panics_witness :
  ∃ st3, run (Feed 0 "Late") test_exited = Some st3 ∧
    crashed st3 = Some "send on closed channel" ∧
    counter (tm st3) = add_int64 (counter (tm test_exited)) 1 ∧
    buf (channel (tm st3)) = buf (channel (tm test_exited)) ∧
    enqueued (trace st3) = enqueued (trace test_exited) ∧
    ∀ a, step a st3 = None.
Proof.
  apply (Feed_after_Stop_panics test_done test_stopped [ActWork 0; ActWork 1]
           test_exited 0 0 "Late"); vm_compute; reflexivity.
Defined.

Lemma Start_runs_witness :
  ∃ st', run (Start 0 (tm test_init)) test_init = Some st' ∧
    pool st' = [WRecv; WRecv] ∧ callers st' = [CIdle] ∧
    tm st' = test_tm ∧ trace st' = [] ∧ world st' = [] ∧ crashed st' = None.
Proof.
  apply (Start_runs test_init 0); [reflexivity | reflexivity | simpl; lia].
Defined.

Lemma pool_drains_witness :
  ∃ sched st',
    run sched test_busy = Some st' ∧ quiescent st' ∧
    fed (trace st') = test_items ∧
    invoked (trace st') ≡ₚ test_items ∧
    IsDone (tm st') = true.
Proof.
  apply (pool_drains 2 handled test_tm 1 [] test_busy).
  - reflexivity.
  - exists test_fed. vm_compute. reflexivity.
  - reflexivity.
  - reflexivity.
  - vm_compute. discriminate.
Defined.

Lemma concurrency_is_bounded_witness :
  (Z.of_nat (length (calling (pool test_busy))) ≤ 2 * Z.of_nat (starts_of test_fed))%Z ∧
  (Z.of_nat (length (omap active (pool test_busy))) ≤ 2 * Z.of_nat (starts_of test_fed))%Z ∧
  (closed (channel (tm test_busy)) = false →
   Forall (λ c, ∀ i, c ≠ CStart i) (callers test_busy) →
   Z.of_nat (length (omap active (pool test_busy))) = (2 * Z.of_nat (starts_of test_fed))%Z).
Proof.
  apply (concurrency_is_bounded 2 handled test_tm 1 [] test_fed test_busy).
  - reflexivity.
  - vm_compute. reflexivity.
Defined.

Example negative_workers_panic :
  @NewThreadManager string (list string) (-1) handled
  = Panic "makechan: size out of range".
Proof. reflexivity. Qed.

End ThreaderFacts.

(* ===================================================================== *)
(** * Properties of the UID functions                                     *)
(* ===================================================================== *)

Module UidFacts.
Import GoRt Uid.
Local Open Scope Z_scope.

Lemma load_lookup (m : gmap Z Z) (p : Z) (n : nat) (bs : list Z) :
  load m p n = Some bs ↔
  length bs = n ∧ ∀ i : nat, (i < n)%nat → m !! (p + Z.of_nat i) = bs !! i.
Proof.
  revert p bs. induction n as [|n IH]; intros p bs; simpl.
  - split.
    + intros [= <-]. split; [done|]. intros i Hi. lia.
    + intros [Hlen _]. by destruct bs.
  - destruct (m !! p) as [b|] eqn:Hb.
    + destruct (load m (p + 1) n) as [rest|] eqn:Hrest.
      * apply IH in Hrest as [Hlen Hlook]. split.
        -- intros [= <-]. split; [simpl; lia|].
           intros [|i] Hi; simpl.
           ++ by rewrite Z.add_0_r.
           ++ rewrite <- Hlook by lia. f_equal. lia.
        -- intros [Hl Hk]. destruct bs as [|b' bs]; [done|].
           pose proof (Hk 0%nat ltac:(lia)) as H0.
           rewrite Z.add_0_r, Hb in H0. simpl in H0. simplify_eq.
           f_equal. f_equal.
           apply list_eq. intros i.
           assert (Hsame : length bs = length rest) by (simpl in Hl; lia).
           destruct (decide (i < length bs)%nat) as [Hi|Hi].
           ++ rewrite <- Hlook by lia.
              specialize (Hk (Datatypes.S i) ltac:(lia)). simpl in Hk.
              rewrite <- Hk. f_equal. lia.
           ++ rewrite !lookup_ge_None_2 by lia. done.
      * split; [done|]. intros [Hl Hk]. exfalso.
        destruct bs as [|b' bs]; [done|].
        assert (Hrest' : load m (p + 1) n = Some bs); [|congruence].
        apply IH. simpl in Hl. split; [lia|].
        intros i Hi. specialize (Hk (Datatypes.S i) ltac:(lia)). simpl in Hk.
        rewrite <- Hk. f_equal. lia.
    + split; [done|]. intros [Hl Hk]. exfalso.
      destruct bs as [|b' bs]; [done|].
      specialize (Hk 0%nat ltac:(lia)). rewrite Z.add_0_r, Hb in Hk. done.
Qed.

(** Reading a shorter run of bytes from the same address yields the
    corresponding prefix. *)
Lemma load_prefix (m : gmap Z Z) (p : Z) (n k : nat) (bs : list Z) :
  load m p n = Some bs → (k ≤ n)%nat → load m p k = Some (take k bs).
Proof.
  intros [Hlen Hlook]%load_lookup Hk. apply load_lookup. split.
  - rewrite length_take. lia.
  - intros i Hi. rewrite lookup_take_lt by done. apply Hlook. lia.
Qed.

(** C10: for a string held in memory, UIDFromString yields nil exactly
    when the string has fewer than 16 bytes; otherwise it yields a
    pointer whose ToString is a string of the first 16 bytes of the
    input (the very same memory, no copy), which are also the bytes of
    the UID it points to. *)
Theorem UIDFromString_ToString (m : gmap Z Z) (s : gostring) (bs : list Z) :
  string_bytes m s = Some bs →
  (UIDFromString s = None ↔ (length bs < 16)%nat) ∧
  ((16 ≤ length bs)%nat →
   ∃ p t, UIDFromString s = Some p ∧ ToString (Some p) = Ok t ∧
          string_bytes m t = Some (take 16 bs) ∧
          deref m p = Some (take 16 bs) ∧
          str_data t = str_data s ∧ str_len t = 16).
Proof.
  unfold string_bytes. intros Hs.
  assert (Hlen : length bs = Z.to_nat (str_len s)).
  { by apply load_lookup in Hs as [Hlen _]. }
  unfold UIDFromString. split.
  - destruct (str_len s <? 16) eqn:Hlt.
    + apply Z.ltb_lt in Hlt. split; [lia|done].
    + apply Z.ltb_ge in Hlt. split; [done|lia].
  - intros Hge. destruct (str_len s <? 16) eqn:Hlt.
    { apply Z.ltb_lt in Hlt. lia. }
    exists (str_data s), (GoString (str_data s) 16).
    assert (Hpre : load m (str_data s) 16 = Some (take 16 bs)).
    { eapply load_prefix; [done|lia]. }
    by repeat split.
Qed.

Lemma land63_range (x : Z) : 0 ≤ Z.land x 63 < 64.
Proof.
  change 63 with (Z.ones 6). rewrite Z.land_ones by lia.
  apply Z.mod_pos_bound. lia.
Qed.

Lemma land3_cases (x : Z) :
  Z.land x 3 = 0 ∨ Z.land x 3 = 1 ∨ Z.land x 3 = 2 ∨ Z.land x 3 = 3.
Proof.
  assert (E : Z.land x 3 = x `mod` 4).
  { change 3 with (Z.ones 2). rewrite Z.land_ones by lia. done. }
  rewrite E. pose proof (Z.mod_pos_bound x 4 ltac:(lia)). lia.
Qed.

Lemma last_index_range (rnd1 rnd2 rnd3 : Z) : 0 ≤ last_index rnd1 rnd2 rnd3 < 64.
Proof.
  unfold last_index.
  destruct (land3_cases (Z.shiftr rnd1 30)) as [-> | [-> | [-> | ->]]];
  destruct (land3_cases (Z.shiftr rnd2 30)) as [-> | [-> | [-> | ->]]];
  destruct (land3_cases (Z.shiftr rnd3 30)) as [-> | [-> | [-> | ->]]];
  vm_compute; split; congruence.
Qed.

Lemma randChars_length : length randChars = 64%nat.
Proof. reflexivity. Qed.

Lemma randChars_valid : Forall (λ c, valid_char c = true) randChars.
Proof. repeat constructor. Qed.

(** Every index below 64 hits a character of the table, and that
    character passes the test of [IsValid]. *)
Lemma index_randChars (i : Z) :
  0 ≤ i < 64 →
  ∃ c, index_string randChars i = Ok c ∧
       randChars !! Z.to_nat i = Some c ∧ valid_char c = true.
Proof.
  intros Hi. unfold index_string. rewrite randChars_length.
  destruct (i <? 0) eqn:H0; [apply Z.ltb_lt in H0; lia|].
  destruct (Z.of_nat 64 <=? i) eqn:H1; [apply Z.leb_le in H1; lia|].
  cbn [orb].
  destruct (randChars !! Z.to_nat i) as [c|] eqn:Hc.
  - exists c. repeat split.
    eapply (Forall_lookup_1 _ _ _ _ randChars_valid Hc).
  - apply lookup_ge_None_1 in Hc. rewrite randChars_length in Hc. lia.
Qed.

Lemma put_ok (p k i : Z) (m : gmap Z Z) :
  0 ≤ i < 64 → is_Some (m !! (p + k)) →
  ∃ c, randChars !! Z.to_nat i = Some c ∧ valid_char c = true ∧
       put (Some p) k i m = Ok (<[p + k := c]> m).
Proof.
  intros Hi [v Hv]. destruct (index_randChars i Hi) as (c & Hidx & Hc & Hval).
  exists c. repeat split; try done.
  unfold put. rewrite Hidx. cbn. unfold store. by rewrite Hv.
Qed.

Lemma alloc_insert (m : gmap Z Z) (a b v : Z) :
  is_Some (m !! a) → is_Some (<[b := v]> m !! a).
Proof.
  intros H. destruct (decide (b = a)) as [->|Hne].
  - rewrite lookup_insert_eq. eauto.
  - by rewrite lookup_insert_ne.
Qed.

Ltac next_put Halloc :=
  match goal with
  | |- context [put (Some ?p) ?k ?i ?m] =>
      let c := fresh "c" in
      let Hc := fresh "Hc" in
      let Hv := fresh "Hv" in
      let Hp := fresh "Hp" in
      destruct (put_ok p k i m) as (c & Hc & Hv & Hp);
      [ first [ apply land63_range | apply last_index_range ]
      | repeat apply alloc_insert; apply Halloc; lia
      | rewrite Hp; clear Hp; cbn [mbind outcome_bind obind] ]
  end.

(** C9: whatever three numbers the random source returns, NewUID on a
    pointer to a UID completes without a panic: each of the 16 indexes
    into the 64-character table is within 0..63, all 16 bytes of the UID
    are overwritten with the characters at those indexes and no other
    byte of memory changes, and the UID then passes IsValid. *)
Theorem NewUID_valid {G : Type} (Fastrand : G → Z * G)
    (p : Z) (g : G) (m : gmap Z Z) (old : list Z) :
  deref m p = Some old →
  let r1 := Fastrand g in
  let r2 := Fastrand r1.2 in
  let r3 := Fastrand r2.2 in
  ∃ m' u,
    NewUID Fastrand (Some p) g m = Ok (r3.2, m') ∧
    deref m' p = Some u ∧
    Forall2 (λ i c, 0 ≤ i < 64 ∧ randChars !! Z.to_nat i = Some c)
            (indexes r1.1 r2.1 r3.1) u ∧
    IsValid u = true ∧
    ∀ a, a < p ∨ p + 16 ≤ a → m' !! a = m !! a.
Proof.
  intros Hold r1 r2 r3. subst r1 r2 r3. unfold NewUID.
  destruct (Fastrand g) as [rnd1 g1]. cbn [fst snd].
  destruct (Fastrand g1) as [rnd2 g2]. cbn [fst snd].
  destruct (Fastrand g2) as [rnd3 g3]. cbn [fst snd].
  assert (Halloc : ∀ k, 0 ≤ k < 16 → is_Some (m !! (p + k))).
  { apply load_lookup in Hold as [Hlen Hlook]. intros k Hk.
    specialize (Hlook (Z.to_nat k) ltac:(lia)).
    rewrite Z2Nat.id in Hlook by lia. rewrite Hlook.
    apply lookup_lt_is_Some. lia. }
  do 16 next_put Halloc.
  eexists _, [c; c0; c1; c2; c3; c4; c5; c6; c7; c8; c9; c10; c11; c12; c13; c14].
  split; [reflexivity|]. split; [|split; [|split]].
  - apply load_lookup. split; [done|].
    intros i Hi.
    do 16 (destruct i as [|i];
           [ cbn [Z.of_nat Pos.of_succ_nat Pos.succ lookup list_lookup];
             rewrite ?Z.add_0_r;
             repeat (rewrite lookup_insert_ne by lia);
             first [ apply lookup_insert_eq
                   | replace p with (p + 0) at 1 by lia; apply lookup_insert_eq ]
           | ]).
    lia.
  - unfold indexes.
    repeat (constructor; [split; [first [apply land63_range | apply last_index_range] | done]|]).
    constructor.
  - unfold IsValid. cbn [IsValid_from lookup list_lookup].
    by repeat match goal with
       | H : valid_char _ = true |- _ => rewrite H; clear H
       end.
  - intros a Ha. by repeat (rewrite lookup_insert_ne by lia).
Qed.

(** ** The alphabet *)

Lemma valid_char_range (b : Z) : valid_char b = true → 0 ≤ b < 128.
Proof.
  unfold valid_char.
  change (ch "a"%char) with 97. change (ch "z"%char) with 122.
  change (ch "A"%char) with 65. change (ch "Z"%char) with 90.
  change (ch "0"%char) with 48. change (ch "9"%char) with 57.
  change (ch "_"%char) with 95. change (ch "-"%char) with 45.
  rewrite !orb_true_iff, !andb_true_iff, !Z.leb_le, !Z.eqb_eq. lia.
Qed.

Lemma alphabet_check :
  forallb (λ b, implb (valid_char b) (bool_decide (b ∈ randChars))) (seqZ 0 128)
  = true.
Proof. vm_compute. reflexivity. Qed.

(** The byte test of IsValid accepts exactly the characters of the
    table. *)
Lemma valid_char_alphabet (b : Z) : valid_char b = true ↔ b ∈ randChars.
Proof.
  split.
  - intros Hv. pose proof (valid_char_range b Hv) as Hr.
    pose proof alphabet_check as Hall.
    rewrite forallb_forall in Hall.
    assert (Hin : In b (seqZ 0 128)).
    { apply list_elem_of_In, elem_of_seqZ. lia. }
    specialize (Hall b Hin). rewrite Hv in Hall. simpl in Hall.
    by apply bool_decide_eq_true in Hall.
  - intros Hb. by apply (proj1 (Forall_forall _ _) randChars_valid).
Qed.

Lemma IsValid_from_spec (uid : list Z) (i todo : nat) :
  IsValid_from uid i todo = true ↔
  ∀ j, (i ≤ j < i + todo)%nat → ∃ b, uid !! j = Some b ∧ valid_char b = true.
Proof.
  revert i. induction todo as [|todo IH]; intros i; simpl.
  - split; [|done]. intros _ j Hj. lia.
  - destruct (uid !! i) as [b|] eqn:Hb.
    + destruct (valid_char b) eqn:Hv.
      * rewrite IH. split.
        -- intros H j Hj. destruct (decide (j = i)) as [->|Hne]; [eauto|].
           apply H. lia.
        -- intros H j Hj. apply H. lia.
      * split; [done|]. intros H.
        destruct (H i ltac:(lia)) as (b' & Hb' & Hv'). congruence.
    + split; [done|]. intros H.
      destruct (H i ltac:(lia)) as (b' & Hb' & _). congruence.
Qed.

(** X11: IsValid holds of a UID exactly when each of its 16 bytes is one
    of the 64 characters NewUID draws from: it accepts everything NewUID
    can produce and nothing written in any other byte. *)
Theorem IsValid_iff_alphabet (uid : list Z) :
  length uid = 16%nat →
  (IsValid uid = true ↔ ∀ b, b ∈ uid → b ∈ randChars).
Proof.
  intros Hlen. unfold IsValid. rewrite IsValid_from_spec. split.
  - intros H b [j Hj]%list_elem_of_lookup.
    pose proof (lookup_lt_Some _ _ _ Hj) as Hlt.
    destruct (H j ltac:(lia)) as (b' & Hb' & Hv). simplify_eq.
    by apply valid_char_alphabet.
  - intros H j Hj.
    destruct (lookup_lt_is_Some_2 uid j ltac:(lia)) as [b Hb].
    exists b. split; [done|]. apply valid_char_alphabet, H.
    apply list_elem_of_lookup. eauto.
Qed.

(** ** What NewUID writes, and that it loses none of the 96 bits *)

Lemma randChars_NoDup : NoDup randChars.
Proof. apply (bool_decide_unpack (NoDup randChars)). vm_compute. exact I. Qed.

Lemma table_at_fun (l : list Z) (u u' : list Z) :
  Forall2 table_at l u → Forall2 table_at l u' → u = u'.
Proof.
  intros H. revert u'. induction H as [|i c l u [_ Hc] _ IH]; intros u' H'.
  - by apply Forall2_nil_inv_l in H'.
  - apply Forall2_cons_inv_l in H' as (c' & u'' & [_ Hc'] & H' & ->).
    f_equal; [congruence|by apply IH].
Qed.

Lemma table_at_inj (l l' : list Z) (u : list Z) :
  Forall2 table_at l u → Forall2 table_at l' u → l = l'.
Proof.
  intros H. revert l'. induction H as [|i c l u [Hi Hc] _ IH]; intros l' H'.
  - by apply Forall2_nil_inv_r in H'.
  - apply Forall2_cons_inv_r in H' as (i' & l'' & [Hi' Hc'] & H' & ->).
    f_equal; [|by apply IH].
    pose proof (NoDup_lookup _ _ _ _ randChars_NoDup Hc Hc'). lia.
Qed.

Lemma NewUID_bytes {G : Type} (Fastrand : G → Z * G)
    (p : Z) (g : G) (m : gmap Z Z) (old : list Z) :
  deref m p = Some old →
  ∃ g' m' u,
    NewUID Fastrand (Some p) g m = Ok (g', m') ∧
    deref m' p = Some u ∧
    Forall2 table_at
      (indexes (three_draws Fastrand g).1.1 (three_draws Fastrand g).1.2
               (three_draws Fastrand g).2) u.
Proof.
  intros Hold. unfold NewUID, three_draws.
  destruct (Fastrand g) as [rnd1 g1]. cbn [fst snd].
  destruct (Fastrand g1) as [rnd2 g2]. cbn [fst snd].
  destruct (Fastrand g2) as [rnd3 g3]. cbn [fst snd].
  assert (Halloc : ∀ k, 0 ≤ k < 16 → is_Some (m !! (p + k))).
  { apply load_lookup in Hold as [Hlen Hlook]. intros k Hk.
    specialize (Hlook (Z.to_nat k) ltac:(lia)).
    rewrite Z2Nat.id in Hlook by lia. rewrite Hlook.
    apply lookup_lt_is_Some. lia. }
  do 16 next_put Halloc.
  eexists _, _, [c; c0; c1; c2; c3; c4; c5; c6; c7; c8; c9; c10; c11; c12; c13; c14].
  split; [reflexivity|]. split.
  - apply load_lookup. split; [done|].
    intros i Hi.
    do 16 (destruct i as [|i];
           [ cbn [Z.of_nat Pos.of_succ_nat Pos.succ lookup list_lookup];
             rewrite ?Z.add_0_r;
             repeat (rewrite lookup_insert_ne by lia);
             first [ apply lookup_insert_eq
                   | replace p with (p + 0) at 1 by lia; apply lookup_insert_eq ]
           | ]).
    lia.
  - unfold indexes, table_at.
    repeat (constructor; [split; [first [apply land63_range | apply last_index_range] | done]|]).
    constructor.
Qed.

Lemma draw_from_digits (r : Z) :
  in_uint32 r →
  r = Z.land r 63 + 2 ^ 6 * Z.land (Z.shiftr r 6) 63
      + 2 ^ 12 * Z.land (Z.shiftr r 12) 63 + 2 ^ 18 * Z.land (Z.shiftr r 18) 63
      + 2 ^ 24 * Z.land (Z.shiftr r 24) 63 + 2 ^ 30 * Z.land (Z.shiftr r 30) 3.
Proof.
  unfold in_uint32. intros Hr.
  change 63 with (Z.ones 6). change 3 with (Z.ones 2).
  rewrite !Z.land_ones, !Z.shiftr_div_pow2 by lia.
  change (2 ^ 6) with 64. change (2 ^ 12) with 4096.
  change (2 ^ 18) with 262144. change (2 ^ 24) with 16777216.
  change (2 ^ 30) with 1073741824. change (2 ^ 2) with 4.
  change (2 ^ 32) with 4294967296 in Hr.
  Z.div_mod_to_equations. lia.
Qed.

Lemma last_index_sum (r1 r2 r3 : Z) :
  last_index r1 r2 r3 =
  Z.land (Z.shiftr r1 30) 3 + 4 * Z.land (Z.shiftr r2 30) 3
  + 16 * Z.land (Z.shiftr r3 30) 3.
Proof.
  unfold last_index.
  destruct (land3_cases (Z.shiftr r1 30)) as [-> | [-> | [-> | ->]]];
  destruct (land3_cases (Z.shiftr r2 30)) as [-> | [-> | [-> | ->]]];
  destruct (land3_cases (Z.shiftr r3 30)) as [-> | [-> | [-> | ->]]];
  reflexivity.
Qed.

Lemma indexes_inj (r1 r2 r3 s1 s2 s3 : Z) :
  in_uint32 r1 → in_uint32 r2 → in_uint32 r3 →
  in_uint32 s1 → in_uint32 s2 → in_uint32 s3 →
  indexes r1 r2 r3 = indexes s1 s2 s3 → r1 = s1 ∧ r2 = s2 ∧ r3 = s3.
Proof.
  intros Hr1 Hr2 Hr3 Hs1 Hs2 Hs3 E. unfold indexes in E.
  injection E as E0 E1 E2 E3 E4 E5 E6 E7 E8 E9 E10 E11 E12 E13 E14 E15.
  rewrite !last_index_sum in E15.
  pose proof (land3_cases (Z.shiftr r1 30)). pose proof (land3_cases (Z.shiftr r2 30)).
  pose proof (land3_cases (Z.shiftr r3 30)). pose proof (land3_cases (Z.shiftr s1 30)).
  pose proof (land3_cases (Z.shiftr s2 30)). pose proof (land3_cases (Z.shiftr s3 30)).
  rewrite (draw_from_digits r1 Hr1), (draw_from_digits r2 Hr2),
    (draw_from_digits r3 Hr3), (draw_from_digits s1 Hs1),
    (draw_from_digits s2 Hs2), (draw_from_digits s3 Hs3).
  rewrite E0, E1, E2, E3, E4, E5, E6, E7, E8, E9, E10, E11, E12, E13, E14.
  assert (Z.land (Z.shiftr r1 30) 3 = Z.land (Z.shiftr s1 30) 3) as -> by lia.
  assert (Z.land (Z.shiftr r2 30) 3 = Z.land (Z.shiftr s2 30) 3) as -> by lia.
  assert (Z.land (Z.shiftr r3 30) 3 = Z.land (Z.shiftr s3 30) 3) as -> by lia.
  done.
Qed.

(** X12: NewUID loses none of its randomness.  Two calls, on whatever
    pointers and random sources, produce the same UID exactly when they
    drew the same three 32-bit numbers: there are 2^96 distinct UIDs, as
    the comment on the type says. *)
Theorem NewUID_injective {G G' : Type} (F : G → Z * G) (F' : G' → Z * G')
    (p p' : Z) (g : G) (g' : G') (m m' : gmap Z Z) (old old' : list Z) :
  deref m p = Some old → deref m' p' = Some old' →
  draws_in_uint32 (three_draws F g) → draws_in_uint32 (three_draws F' g') →
  ∃ h h' m1 m1' u u',
    NewUID F (Some p) g m = Ok (h, m1) ∧
    NewUID F' (Some p') g' m' = Ok (h', m1') ∧
    deref m1 p = Some u ∧ deref m1' p' = Some u' ∧
    (u = u' ↔ three_draws F g = three_draws F' g').
Proof.
  intros Hold Hold' (Hr1 & Hr2 & Hr3) (Hs1 & Hs2 & Hs3).
  destruct (NewUID_bytes F p g m old Hold) as (h & m1 & u & Hrun & Hu & Hidx).
  destruct (NewUID_bytes F' p' g' m' old' Hold') as (h' & m1' & u' & Hrun' & Hu' & Hidx').
  exists h, h', m1, m1', u, u'. split_and!; try done.
  destruct (three_draws F g) as [[r1 r2] r3].
  destruct (three_draws F' g') as [[s1 s2] s3]. cbn [fst snd] in *.
  split.
  - intros <-. pose proof (table_at_inj _ _ _ Hidx Hidx') as E.
    apply indexes_inj in E as (-> & -> & ->); done.
  - intros [= -> -> ->]. by eapply table_at_fun.
Qed.

(** X13: a UID written by NewUID reads back as a string.  ToString of
    the pointer is a 16-byte string holding exactly the bytes just
    written, all of them characters of the table, and UIDFromString of
    that string is the same pointer again. *)
Theorem NewUID_ToString_round_trip {G : Type} (F : G → Z * G)
    (p : Z) (g : G) (m : gmap Z Z) (old : list Z) :
  deref m p = Some old →
  ∃ h m1 t u,
    NewUID F (Some p) g m = Ok (h, m1) ∧
    ToString (Some p) = Ok t ∧
    string_bytes m1 t = Some u ∧ deref m1 p = Some u ∧
    length u = 16%nat ∧ (∀ b, b ∈ u → b ∈ randChars) ∧
    UIDFromString t = Some p.
Proof.
  intros Hold.
  destruct (NewUID_bytes F p g m old Hold) as (h & m1 & u & Hrun & Hu & Hidx).
  exists h, m1, (GoString p 16), u. split_and!; try done.
  - by apply load_lookup in Hu as [? _].
  - intros b [j Hj]%list_elem_of_lookup.
    destruct (Forall2_lookup_r _ _ _ _ _ Hidx Hj) as (i & _ & _ & Hi).
    apply list_elem_of_lookup. eauto.
Qed.

(** ** On a concrete memory *)

Lemma NewUID_valid_witness :
  deref demo_mem 4096 = Some (take 16 demo_text) ∧
  ∃ m' u,
    NewUID lcg (Some 4096) 1 demo_mem = Ok ((lcg (lcg (lcg 1).2).2).2, m') ∧
    deref m' 4096 = Some u ∧ IsValid u = true.
Proof.
  assert (Hd : deref demo_mem 4096 = Some (take 16 demo_text)) by reflexivity.
  split; [exact Hd|].
  destruct (NewUID_valid lcg 4096 1 demo_mem _ Hd) as (m' & u & H1 & H2 & _ & H4 & _).
  exists m', u. by repeat split.
Defined.

Lemma UIDFromString_ToString_witness :
  string_bytes demo_mem demo_string = Some demo_text ∧
  (UIDFromString demo_string = None ↔ (length demo_text < 16)%nat) ∧
  ((16 ≤ length demo_text)%nat →
   ∃ p t, UIDFromString demo_string = Some p ∧ ToString (Some p) = Ok t ∧
          string_bytes demo_mem t = Some (take 16 demo_text) ∧
          deref demo_mem p = Some (take 16 demo_text) ∧
          str_data t = str_data demo_string ∧ str_len t = 16).
Proof.
  assert (Hs : string_bytes demo_mem demo_string = Some demo_text) by reflexivity.
  split; [exact Hs|].
  apply (UIDFromString_ToString demo_mem demo_string demo_text Hs).
Defined.

Example NewUID_demo :
  match NewUID lcg (Some 4096) 1 demo_mem with
  | Ok (_, m) => (deref m 4096, m !! 4112)
  | Panic _ => (None, None)
  end = (Some (bytes_of "SLfI8BxiIE_fGfbK"), Some (ch "-"%char)).
Proof. vm_compute. reflexivity. Qed.

Example NewUID_nil_panics : is_ok (NewUID lcg None 1 demo_mem) = false.
Proof. vm_compute. reflexivity. Qed.

Lemma IsValid_iff_alphabet_witness :
  length (bytes_of "SLfI8BxiIE_fGfbK") = 16%nat ∧
  (IsValid (bytes_of "SLfI8BxiIE_fGfbK") = true ↔
   ∀ b, b ∈ bytes_of "SLfI8BxiIE_fGfbK" → b ∈ randChars).
Proof.
  split; [reflexivity|].
  apply (IsValid_iff_alphabet (bytes_of "SLfI8BxiIE_fGfbK")). reflexivity.
Defined.

Lemma NewUID_injective_witness :
  three_draws lcg 1 ≠ three_draws lcg 2 ∧
  ∃ h h' m1 m1' u u',
    NewUID lcg (Some 4096) 1 demo_mem = Ok (h, m1) ∧
    NewUID lcg (Some 4096) 2 demo_mem = Ok (h', m1') ∧
    deref m1 4096 = Some u ∧ deref m1' 4096 = Some u' ∧
    (u = u' ↔ three_draws lcg 1 = three_draws lcg 2).
Proof.
  split; [vm_compute; discriminate|].
  apply (NewUID_injective lcg lcg 4096 4096 1 2 demo_mem demo_mem
           (take 16 demo_text) (take 16 demo_text)).
  - reflexivity.
  - reflexivity.
  - unfold draws_in_uint32, in_uint32. vm_compute. intuition discriminate.
  - unfold draws_in_uint32, in_uint32. vm_compute. intuition discriminate.
Defined.

Lemma NewUID_ToString_round_trip_witness :
  ∃ h m1 t u,
    NewUID lcg (Some 4096) 1 demo_mem = Ok (h, m1) ∧
    ToString (Some 4096) = Ok t ∧
    string_bytes m1 t = Some u ∧ deref m1 4096 = Some u ∧
    length u = 16%nat ∧ (∀ b, b ∈ u → b ∈ randChars) ∧
    UIDFromString t = Some 4096.
Proof.
  apply (NewUID_ToString_round_trip lcg 4096 1 demo_mem (take 16 demo_text)).
  reflexivity.
Defined.

Example UIDFromString_short : UIDFromString short_string = None.
Proof. reflexivity. Qed.

Example ToString_nil_panics :
  is_ok (ToString (UIDFromString short_string)) = false.
Proof. reflexivity. Qed.

Example UIDFromString_demo :
  obind (ToString (UIDFromString demo_string))
        (λ t, match string_bytes demo_mem t with
              | Some bs => Ok bs
              | None => Panic "fault"
              end)
  = Ok (bytes_of "0123456789abcdef").
Proof. reflexivity. Qed.

Example IsValid_rejects_markup :
  IsValid (bytes_of "<script>alert(1)") = false.
Proof. reflexivity. Qed.

End UidFacts.

(* ===================================================================== *)
(** * Properties of the JSON wrappers                                     *)
(* ===================================================================== *)

Module JsonFacts.
Import Json.

Section Contract.
Context {T R E : Type} (zero : T).
Context (io_ReadAll : R → R * list Z * option E).
Context (json_Unmarshal : list Z → option positive → gmap positive T
                          → gmap positive T * option E).

(** C8: both wrappers call io.ReadAll once on the reader.  If it fails
    they return a nil pointer and its error, and neither call the
    deserializer nor touch the heap.  Otherwise they hand exactly the
    bytes read to json.Unmarshal, together with a pointer to a fresh
    zero value (Unmarshal) or the caller's pointer (UnmarshalPointer); if
    that fails they return a nil pointer and its error, else that pointer
    and a nil error.  There is no other outcome. *)
Theorem wrappers_contract (rc : R) (h : gmap positive T) (in_ : option positive) :
  let u := Unmarshal zero io_ReadAll json_Unmarshal rc h in
  let v := UnmarshalPointer io_ReadAll json_Unmarshal in_ rc h in
  let res := fresh (dom h) in
  (res ∉ dom h) ∧
  ptr u = match err u with Some _ => None | None => Some res end ∧
  ptr v = match err v with Some _ => None | None => in_ end ∧
  match io_ReadAll rc with
  | (rc1, b, Some e) =>
      u = Result rc1 h None (Some e) ∧ v = Result rc1 h None (Some e)
  | (rc1, b, None) =>
      match json_Unmarshal b (Some res) (<[res := zero]> h) with
      | (h1, Some e) => u = Result rc1 h1 None (Some e)
      | (h1, None) => u = Result rc1 h1 (Some res) None
      end ∧
      match json_Unmarshal b in_ h with
      | (h2, Some e) => v = Result rc1 h2 None (Some e)
      | (h2, None) => v = Result rc1 h2 in_ None
      end
  end.
Proof.
  cbv zeta. unfold Unmarshal, UnmarshalPointer.
  split; [apply is_fresh|].
  destruct (io_ReadAll rc) as [[rc1 b] [e|]]; [by repeat split|].
  destruct (json_Unmarshal b (Some (fresh (dom h))) (<[fresh (dom h) := zero]> h))
    as [h1 [e1|]];
  destruct (json_Unmarshal b in_ h) as [h2 [e2|]]; by repeat split.
Qed.

(** X14: with a deserializer that writes only through its pointer,
    Unmarshal never changes a value the caller already has: whatever the
    outcome, every cell of the heap that existed before holds what it
    held, and the pointer returned on success is to a cell that did not
    exist.  UnmarshalPointer changes at most the cell it was given, and
    that also when it returns an error. *)
Theorem wrappers_frame (rc : R) (h : gmap positive T) (in_ : option positive) :
  writes_only_target json_Unmarshal →
  let u := Unmarshal zero io_ReadAll json_Unmarshal rc h in
  let v := UnmarshalPointer io_ReadAll json_Unmarshal in_ rc h in
  (∀ l, is_Some (h !! l) → heap_after u !! l = h !! l) ∧
  (∀ l, ptr u = Some l → h !! l = None) ∧
  (∀ l, in_ ≠ Some l → heap_after v !! l = h !! l).
Proof.
  intros Hframe. cbv zeta. unfold Unmarshal, UnmarshalPointer.
  pose proof (is_fresh (dom h)) as Hfresh.
  apply not_elem_of_dom in Hfresh.
  destruct (io_ReadAll rc) as [[rc1 b] [e|]]; [by split_and!|].
  pose proof (Hframe b (Some (fresh (dom h))) (<[fresh (dom h) := zero]> h)) as H1.
  pose proof (Hframe b in_ h) as H2.
  destruct (json_Unmarshal b (Some (fresh (dom h))) (<[fresh (dom h) := zero]> h))
    as [h1 [e1|]];
  destruct (json_Unmarshal b in_ h) as [h2 [e2|]]; cbn in *;
    (split_and!;
     [ intros l [x Hl]; rewrite H1 by congruence;
       apply lookup_insert_ne; congruence
     | intros l ?; by simplify_eq
     | intros l Hne; by apply H2 ]).
Qed.

End Contract.

Lemma digit_writes_only_target : writes_only_target digit.
Proof.
  intros b p h l Hne. unfold digit.
  destruct p as [l'|]; [|done].
  destruct b as [|d [|d' b]]; try done.
  destruct ((48 <=? d) && (d <=? 57))%Z; [|done].
  simpl. apply lookup_insert_ne. congruence.
Qed.

Lemma wrappers_frame_witness :
  let h : gmap positive Z := {[1%positive := 42%Z]} in
  let u := Unmarshal 0%Z read_all digit ([[55%Z]], None) h in
  let v := UnmarshalPointer read_all digit (Some 5%positive) ([[55%Z]], None) h in
  (∀ l, is_Some (h !! l) → heap_after u !! l = h !! l) ∧
  (∀ l, ptr u = Some l → h !! l = None) ∧
  (∀ l, Some 5%positive ≠ Some l → heap_after v !! l = h !! l).
Proof.
  apply (wrappers_frame 0%Z read_all digit ([[55%Z]], None)
           {[1%positive := 42%Z]} (Some 5%positive)).
  exact digit_writes_only_target.
Defined.

Example Unmarshal_keeps_other_values :
  let r := Unmarshal 0%Z read_all digit ([[55%Z]], None) {[1%positive := 42%Z]} in
  heap_after r !! 1%positive = Some 42%Z ∧ ptr r = Some 2%positive ∧
  heap_after r !! 2%positive = Some 7%Z.
Proof. repeat split. Qed.

Example Unmarshal_digit :
  let r := Unmarshal 0%Z read_all digit ([[55%Z]], None) ∅ in
  err r = None ∧ ptr r = Some 1%positive ∧ heap_after r !! 1%positive = Some 7%Z.
Proof. repeat split. Qed.

Example Unmarshal_read_error :
  Unmarshal 0%Z read_all digit ([[55%Z]], Some "unexpected EOF"%string) ∅
  = Result ([], Some "unexpected EOF"%string) ∅ None (Some "unexpected EOF"%string).
Proof. reflexivity. Qed.

Example Unmarshal_bad_input :
  let r := Unmarshal 0%Z read_all digit ([[55%Z]; [56%Z]], None) ∅ in
  err r = Some "unexpected end of JSON input"%string ∧ ptr r = None.
Proof. repeat split. Qed.

Example UnmarshalPointer_digit :
  let r := UnmarshalPointer read_all digit (Some 5%positive) ([[51%Z]], None)
             {[5%positive := 0%Z]} in
  err r = None ∧ ptr r = Some 5%positive ∧ heap_after r !! 5%positive = Some 3%Z.
Proof. repeat split. Qed.

Example UnmarshalPointer_nil :
  let r := UnmarshalPointer read_all digit None ([[51%Z]], None) ∅ in
  err r = Some "json: Unmarshal(nil)"%string ∧ ptr r = None.
Proof. repeat split. Qed.

End JsonFacts.
